(** * Verification of [dsa_cs.py]: Merkle fingerprint over a priority-queue
      backed resource allocator.

    The development embeds, in order:
    - [hashlib.sha256(..).hexdigest()] (module [SHA256]);
    - Python exceptions as an error monad ([result]);
    - [MerkleTree.build_tree] with its index-driven loops;
    - [heapq.heappush] / [heapq.heappop], which [queue.PriorityQueue] uses
      for [put] / [get], over an array (a Python list);
    - the object store holding [CloudResource] instances and the
      [CloudResourceAllocator] methods working on references into it.

    A Python [str] is a sequence of code points.  It is represented by the
    bytes of its UTF-8 encoding (a Rocq [string] is a sequence of bytes),
    where a surrogate code point U+D800..U+DFFF, which strict UTF-8 has no
    encoding for, is kept as the three bytes ED A0..BF 80..BF that its code
    point would give.  Distinct strings have distinct bytes, concatenation
    is [+:+] and [==] is equality of the bytes; [item.encode('utf-8')]
    returns the bytes as they are, or raises [UnicodeEncodeError] when the
    string holds a surrogate ([encode_utf8]).  [input()] yields such a
    string for an invalid input byte under the [surrogateescape] handler. *)

From Stdlib Require Import ZArith Lia ZifyNat List Bool Ascii String Sorting.Sorted.
From stdpp Require Import base option list strings sorting relations.

Local Open Scope Z_scope.

(* ===================================================================== *)
(** ** SHA-256 (FIPS 180-4), as computed by [hashlib.sha256] *)
(* ===================================================================== *)

Module SHA256.

Definition mask32 (x : Z) : Z := Z.land x 0xFFFFFFFF.

Definition add32 (x y : Z) : Z := mask32 (x + y).

Definition rotr (n x : Z) : Z :=
  mask32 (Z.lor (Z.shiftr x n) (Z.shiftl x (32 - n))).

Definition Ch (x y z : Z) : Z :=
  Z.lxor (Z.land x y) (Z.land (Z.lxor x 0xFFFFFFFF) z).

Definition Maj (x y z : Z) : Z :=
  Z.lxor (Z.lxor (Z.land x y) (Z.land x z)) (Z.land y z).

Definition Sigma0 (x : Z) : Z := Z.lxor (Z.lxor (rotr 2 x) (rotr 13 x)) (rotr 22 x).
Definition Sigma1 (x : Z) : Z := Z.lxor (Z.lxor (rotr 6 x) (rotr 11 x)) (rotr 25 x).
Definition sigma0 (x : Z) : Z := Z.lxor (Z.lxor (rotr 7 x) (rotr 18 x)) (Z.shiftr x 3).
Definition sigma1 (x : Z) : Z := Z.lxor (Z.lxor (rotr 17 x) (rotr 19 x)) (Z.shiftr x 10).

(** The round constants and the initial hash value are defined by the
    standard as the first 32 bits of the fractional parts of the cube roots
    of the first 64 primes, and of the square roots of the first 8. *)
Definition is_prime (n : Z) : bool :=
  (1 <? n) && forallb (fun d => negb (n mod d =? 0))
                      (List.map Z.of_nat (seq 2 (Z.to_nat n - 2))).

Definition primes : list Z :=
  List.filter is_prime (List.map Z.of_nat (seq 2 310)).

(** Integer cube root, one bit at a time from bit [bits - 1] down. *)
Fixpoint cbrt_bits (bits : nat) (n r : Z) : Z :=
  match bits with
  | O => r
  | S b =>
      let c := r + 2 ^ Z.of_nat b in
      cbrt_bits b n (if c * c * c <=? n then c else r)
  end.

Definition frac_cbrt32 (p : Z) : Z := mask32 (cbrt_bits 40 (p * 2 ^ 96) 0).
Definition frac_sqrt32 (p : Z) : Z := mask32 (Z.sqrt (p * 2 ^ 64)).

Definition K : list Z := Eval vm_compute in List.map frac_cbrt32 primes.

Definition H0 : list Z := Eval vm_compute in List.map frac_sqrt32 (firstn 8 primes).

(** Big-endian encoding of [x] on [n] bytes. *)
Fixpoint be_bytes (n : nat) (x : Z) : list Z :=
  match n with
  | O => []
  | S n' => Z.land (Z.shiftr x (8 * Z.of_nat n')) 0xFF :: be_bytes n' x
  end.

(** Message padding: a [1] bit, zeros up to 56 modulo 64, then the bit
    length on eight bytes. *)
Definition pad (msg : list Z) : list Z :=
  let len := Z.of_nat (length msg) in
  let zeros := Z.to_nat ((55 - len) mod 64) in
  msg ++ 0x80 :: repeat 0 zeros ++ be_bytes 8 (8 * len).

(** The sixteen big-endian words of a 64-byte block. *)
Fixpoint words (bs : list Z) : list Z :=
  match bs with
  | b0 :: b1 :: b2 :: b3 :: rest =>
      (Z.shiftl b0 24 + Z.shiftl b1 16 + Z.shiftl b2 8 + b3) :: words rest
  | _ => []
  end.

(** Message schedule, kept with the most recent word first: [sched] holds
    W[t-1], W[t-2], ...; each step conses W[t]. *)
Fixpoint extend (n : nat) (sched : list Z) : list Z :=
  match n with
  | O => sched
  | S n' =>
      let w := add32 (add32 (sigma1 (nth 1 sched 0)) (nth 6 sched 0))
                     (add32 (sigma0 (nth 14 sched 0)) (nth 15 sched 0)) in
      extend n' (w :: sched)
  end.

Definition schedule (block : list Z) : list Z :=
  rev (extend 48 (rev (words block))).

Record regs := Regs { ra : Z; rb : Z; rc : Z; rd : Z; re : Z; rf : Z; rg : Z; rh : Z }.

Definition round (s : regs) (kw : Z * Z) : regs :=
  let '(k, w) := kw in
  let t1 := add32 (add32 (add32 (add32 (rh s) (Sigma1 (re s))) (Ch (re s) (rf s) (rg s))) k) w in
  let t2 := add32 (Sigma0 (ra s)) (Maj (ra s) (rb s) (rc s)) in
  Regs (add32 t1 t2) (ra s) (rb s) (rc s) (add32 (rd s) t1) (re s) (rf s) (rg s).

Definition regs_of (h : list Z) : regs :=
  Regs (nth 0 h 0) (nth 1 h 0) (nth 2 h 0) (nth 3 h 0)
       (nth 4 h 0) (nth 5 h 0) (nth 6 h 0) (nth 7 h 0).

Definition list_of (s : regs) : list Z :=
  [ra s; rb s; rc s; rd s; re s; rf s; rg s; rh s].

Definition compress (h : list Z) (block : list Z) : list Z :=
  let s := fold_left round (combine K (schedule block)) (regs_of h) in
  zip_with add32 h (list_of s).

Fixpoint blocks (n : nat) (bs : list Z) : list (list Z) :=
  match n with
  | O => []
  | S n' => firstn 64 bs :: blocks n' (skipn 64 bs)
  end.

Definition digest (msg : list Z) : list Z :=
  let p := pad msg in
  let h := fold_left compress (blocks (Nat.div (length p) 64) p) H0 in
  flat_map (be_bytes 4) h.

Definition hex_digit (d : Z) : ascii :=
  ascii_of_N (Z.to_N (if d <? 10 then 48 + d else 87 + d)).

Fixpoint hex (bs : list Z) : string :=
  match bs with
  | [] => EmptyString
  | b :: bs' => String (hex_digit (Z.shiftr b 4)) (String (hex_digit (Z.land b 0xF)) (hex bs'))
  end.

Definition bytes_of_string (s : string) : list Z :=
  map (fun c => Z.of_N (N_of_ascii c)) (list_ascii_of_string s).

(** [hashlib.sha256(data).hexdigest()] on the bytes of [s]. *)
Definition hexdigest (s : string) : string := hex (digest (bytes_of_string s)).

End SHA256.

Local Open Scope nat_scope.

(* ===================================================================== *)
(** ** Python exceptions and list primitives *)
(* ===================================================================== *)

Inductive exn : Type := IndexError | UnicodeEncodeError.

(** Outcome of running a piece of Python: a value, a raised exception, or
    [OutOfFuel] when a loop of the model was given too few iterations (the
    theorems below show that the fuel handed out is always enough). *)
Inductive result (A : Type) : Type :=
  | Ok (a : A)
  | Raise (e : exn)
  | OutOfFuel.
Arguments Ok {A} a.
Arguments Raise {A} e.
Arguments OutOfFuel {A}.

#[global] Instance result_ret : MRet result := fun A a => Ok a.
#[global] Instance result_bind : MBind result := fun A B f m =>
  match m with
  | Ok a => f a
  | Raise e => Raise e
  | OutOfFuel => OutOfFuel
  end.

(** [l[i]] for a non-negative index. *)
Definition getitem {A} (l : list A) (i : nat) : result A :=
  match l !! i with
  | Some x => Ok x
  | None => Raise IndexError
  end.

(** [l[i] = x] for a non-negative index. *)
Definition setitem {A} (l : list A) (i : nat) (x : A) : result (list A) :=
  if i <? length l then Ok (<[i:=x]> l) else Raise IndexError.

(** [l.append(x)]. *)
Definition append {A} (l : list A) (x : A) : list A := l ++ [x].

(** [l.pop()]: the last element and the list without it. *)
Definition list_pop {A} (l : list A) : result (A * list A) :=
  match last l with
  | Some x => Ok (x, removelast l)
  | None => Raise IndexError
  end.

(** [range(start, stop, step)] for [0 < step]. *)
Definition range (start stop step : nat) : list nat :=
  map (fun k => start + k * step) (seq 0 ((stop - start + (step - 1)) / step)).

(** [for x in xs: s = body(s, x)], stopping at the first exception. *)
Fixpoint for_each {A S} (xs : list A) (body : S → A → result S) (s : S) : result S :=
  match xs with
  | [] => Ok s
  | x :: xs' => s' ← body s x; for_each xs' body s'
  end.

(* ===================================================================== *)
(** ** class MerkleTree *)
(* ===================================================================== *)

(** The bytes [c d] start the encoding of a surrogate: lead byte ED, then
    a byte in A0..BF.  (ED followed by 80..9F starts U+D000..U+D7FF.) *)
Definition surrogate_lead (c d : ascii) : bool :=
  ((N_of_ascii c =? 0xED) && (0xA0 <=? N_of_ascii d) && (N_of_ascii d <=? 0xBF))%N.

(** The string holds a surrogate code point. *)
Fixpoint has_surrogate (s : string) : bool :=
  match s with
  | EmptyString => false
  | String c rest =>
      match rest with
      | String d _ => surrogate_lead c d
      | EmptyString => false
      end
      || has_surrogate rest
  end.

(** [s.encode('utf-8')], with the default strict error handler. *)
Definition encode_utf8 (s : string) : result string :=
  if has_surrogate s then Raise UnicodeEncodeError else Ok s.

(** [hashlib.sha256(data).hexdigest()] on bytes. *)
Definition digest (data : string) : string := SHA256.hexdigest data.
Arguments digest : simpl never.

(** [MerkleTree.hash]: [hashlib.sha256(item.encode('utf-8')).hexdigest()]. *)
Definition hash (item : string) : result string :=
  data ← encode_utf8 item;
  Ok (digest data).

(** Body of [for j in range(0, i, 2)]. *)
Definition build_tree_pair (tree : list string) (i : nat)
    (temp : list string) (j : nat) : result (list string) :=
  if j + 1 <? i then
    l ← getitem tree j;
    r ← getitem tree (j + 1);
    h ← hash (l +:+ r);
    Ok (append temp h)
  else
    x ← getitem tree j;
    Ok (append temp x).

(** [while i > 1: ...]. *)
Fixpoint build_tree_while (fuel : nat) (tree : list string) (i : nat)
    : result (list string) :=
  if 1 <? i then
    match fuel with
    | O => OutOfFuel
    | S fuel' =>
        temp ← for_each (range 0 i 2) (build_tree_pair tree i) [];
        build_tree_while fuel' temp (length temp)
    end
  else Ok tree.

Definition build_tree (data : list string) : result string :=
  tree ← for_each data (fun tree item => h ← hash item; Ok (append tree h)) [];
  let i := length data in
  tree ← build_tree_while (length data) tree i;
  getitem tree 0.

Record MerkleTree : Type := { data : list string; tree : string }.

(** [MerkleTree(data)]: the constructor. *)
Definition MerkleTree_init (data : list string) : result MerkleTree :=
  tree ← build_tree data;
  Ok {| data := data; tree := tree |}.

(* ===================================================================== *)
(** ** heapq: the binary heap behind [queue.PriorityQueue] *)
(* ===================================================================== *)

(** [PriorityQueue.put(x)] is [heappush(self.queue, x)], [get()] is
    [heappop(self.queue)], [empty()] is [not len(self.queue)], and
    [self.queue] is the heap array itself.  The functions below follow
    CPython's [heapq]; elements are compared with [<] only. *)

Section heapq.
Context {A : Type} (lt : A → A → bool).

(** The [while pos > startpos] loop of [_siftdown]. *)
Fixpoint _siftdown_loop (fuel : nat) (heap : list A) (startpos pos : nat)
    (newitem : A) : result (list A) :=
  if startpos <? pos then
    match fuel with
    | O => OutOfFuel
    | S fuel' =>
        let parentpos := (pos - 1) / 2 in
        parent ← getitem heap parentpos;
        if lt newitem parent then
          heap ← setitem heap pos parent;
          _siftdown_loop fuel' heap startpos parentpos newitem
        else setitem heap pos newitem
    end
  else setitem heap pos newitem.

Definition _siftdown (heap : list A) (startpos pos : nat) : result (list A) :=
  newitem ← getitem heap pos;
  _siftdown_loop pos heap startpos pos newitem.

(** The [while childpos < endpos] loop of [_siftup]; returns the heap and
    the final [pos]. *)
Fixpoint _siftup_loop (fuel : nat) (heap : list A) (endpos pos childpos : nat)
    : result (list A * nat) :=
  if childpos <? endpos then
    match fuel with
    | O => OutOfFuel
    | S fuel' =>
        let rightpos := childpos + 1 in
        childpos ←
          (if rightpos <? endpos then
             c ← getitem heap childpos;
             r ← getitem heap rightpos;
             Ok (if negb (lt c r) then rightpos else childpos)
           else Ok childpos);
        child ← getitem heap childpos;
        heap ← setitem heap pos child;
        _siftup_loop fuel' heap endpos childpos (2 * childpos + 1)
    end
  else Ok (heap, pos).

Definition _siftup (heap : list A) (pos : nat) : result (list A) :=
  let endpos := length heap in
  let startpos := pos in
  newitem ← getitem heap pos;
  '(heap, pos) ← _siftup_loop endpos heap endpos pos (2 * pos + 1);
  heap ← setitem heap pos newitem;
  _siftdown heap startpos pos.

Definition heappush (heap : list A) (item : A) : result (list A) :=
  let heap := append heap item in
  _siftdown heap 0 (length heap - 1).

Definition heappop (heap : list A) : result (A * list A) :=
  '(lastelt, heap) ← list_pop heap;
  match heap with
  | [] => Ok (lastelt, heap)
  | _ :: _ =>
      returnitem ← getitem heap 0;
      heap ← setitem heap 0 lastelt;
      heap ← _siftup heap 0;
      Ok (returnitem, heap)
  end.
End heapq.

(* ===================================================================== *)
(** ** class CloudResource and the object store *)
(* ===================================================================== *)

Record CloudResource : Type :=
  { name : string; priority : Z; allocated : bool }.

#[global] Instance CloudResource_inhabited : Inhabited CloudResource :=
  populate {| name := ""; priority := 0; allocated := false |}.

(** [CloudResource.__lt__]. *)
Definition CloudResource_lt (self other : CloudResource) : bool :=
  (priority self <? priority other)%Z.

(** A reference to a [CloudResource] object: its index in the store. *)
Definition ref : Type := nat.

(** The interpreter state the allocator lives in: the objects created so
    far, the two attributes of the [CloudResourceAllocator] instance that
    the core uses ([resources.queue] as a list of references, and
    [merkle_tree]), and what has been printed. *)
Record World : Type :=
  { store : list CloudResource;
    resources : list ref;
    merkle_tree : option MerkleTree;
    stdout : list string }.

(** References are only created by [CloudResource_new], so a reference
    handed to these functions is below [length (store w)]; the total
    lookup is never used outside the store on reachable states. *)
Definition deref (st : list CloudResource) (r : ref) : CloudResource := st !!! r.

Definition lt_ref (st : list CloudResource) (a b : ref) : bool :=
  CloudResource_lt (deref st a) (deref st b).

Definition set_allocated (st : list CloudResource) (r : ref) (b : bool)
    : list CloudResource :=
  <[r := {| name := name (deref st r); priority := priority (deref st r);
            allocated := b |}]> st.

(** [CloudResource(name, priority, allocated)]: a new object. *)
Definition CloudResource_new (n : string) (p : Z) (a : bool) (w : World)
    : ref * World :=
  (length (store w),
   {| store := store w ++ [{| name := n; priority := p; allocated := a |}];
      resources := resources w; merkle_tree := merkle_tree w;
      stdout := stdout w |}).

(* ===================================================================== *)
(** ** class CloudResourceAllocator *)
(* ===================================================================== *)

(** [print(s)]. *)
Definition print (s : string) (w : World) : World :=
  {| store := store w; resources := resources w;
     merkle_tree := merkle_tree w; stdout := append (stdout w) s |}.

(** [CloudResourceAllocator()] in an interpreter that holds no objects. *)
Definition init : World :=
  {| store := []; resources := []; merkle_tree := None; stdout := [] |}.

(** [allocate_resource] has no [return]: the call evaluates to [None],
    modelled by [tt]. *)
Definition allocate_resource (resource : ref) (w : World) : result (unit * World) :=
  if negb (allocated (deref (store w) resource)) then
    q ← heappush (lt_ref (store w)) (resources w) resource;
    Ok (tt, {| store := set_allocated (store w) resource true;
               resources := q; merkle_tree := merkle_tree w;
               stdout := stdout w |})
  else Ok (tt, w).

(** The [while not self.resources.empty()] loop of [deallocate_resource]. *)
Fixpoint deallocate_drain (fuel : nat) (st : list CloudResource)
    (resource_name : string) (queue : list ref)
    (deallocated_resource : option ref) (resources_copy : list ref)
    : result (list ref * option ref * list ref) :=
  if negb (length queue =? 0) then
    match fuel with
    | O => OutOfFuel
    | S fuel' =>
        '(resource, queue) ← heappop (lt_ref st) queue;
        if String.eqb (name (deref st resource)) resource_name then
          deallocate_drain fuel' st resource_name queue (Some resource) resources_copy
        else
          deallocate_drain fuel' st resource_name queue deallocated_resource
            (append resources_copy resource)
    end
  else Ok (queue, deallocated_resource, resources_copy).

Definition deallocate_resource (resource_name : string) (w : World)
    : result (option ref * World) :=
  '(queue, deallocated_resource, resources_copy) ←
     deallocate_drain (length (resources w)) (store w) resource_name
       (resources w) None [];
  queue ← for_each resources_copy (heappush (lt_ref (store w))) queue;
  let st :=
    match deallocated_resource with
    | Some r => set_allocated (store w) r false
    | None => store w
    end in
  Ok (deallocated_resource,
      {| store := st; resources := queue; merkle_tree := merkle_tree w;
         stdout := stdout w |}).

(** [[resource.name for resource in self.resources.queue]]. *)
Definition resource_names (w : World) : list string :=
  map (fun r => name (deref (store w) r)) (resources w).

Definition build_merkle_tree (w : World) : result (unit * World) :=
  t ← MerkleTree_init (resource_names w);
  Ok (tt, {| store := store w; resources := resources w;
             merkle_tree := Some t; stdout := stdout w |}).

Definition verify_merkle_tree (w : World) : result (bool * World) :=
  match merkle_tree w with
  | None => Ok (false, print "Merkle tree not built." w)
  | Some t =>
      root ← build_tree (resource_names w);
      Ok (String.eqb (tree t) root, w)
  end.

Definition get_allocated_resources (w : World) : list string :=
  map (fun r => name (deref (store w) r))
      (filter (fun r => allocated (deref (store w) r) = true) (resources w)).

Definition get_resource_by_name (resource_name : string) (w : World) : option ref :=
  find (fun r => String.eqb (name (deref (store w) r)) resource_name) (resources w).

(** Branch [choice == 1] of [main]. *)
Definition main_allocate (n : string) (p : Z) (w : World) : result (unit * World) :=
  let '(resource, w) := CloudResource_new n p false w in
  '(_, w) ← allocate_resource resource w;
  Ok (tt, print "Resource allocated successfully." w).

(** Branches [choice == 2], [3] and [4] of [main].  Nothing in [main]
    catches an exception raised by the allocator, so a [Raise] here is the
    interpreter terminating with a traceback. *)
Definition main_deallocate (n : string) (w : World) : result (unit * World) :=
  '(deallocated_resource, w) ← deallocate_resource n w;
  Ok (tt, print (match deallocated_resource with
                 | Some _ => "Resource deallocated successfully."
                 | None => "Resource not found."
                 end) w).

Definition main_build (w : World) : result (unit * World) :=
  '(_, w) ← build_merkle_tree w;
  Ok (tt, print "Merkle tree built successfully." w).

Definition main_verify (w : World) : result (unit * World) :=
  '(ok, w) ← verify_merkle_tree w;
  Ok (tt, print (if ok : bool then "Merkle tree verified successfully."
                 else "Merkle tree verification failed.") w).

(** A run of allocation requests through [main]. *)
Fixpoint main_allocate_all (requests : list (string * Z)) (w : World) : result World :=
  match requests with
  | [] => Ok w
  | (n, p) :: requests' =>
      '(_, w) ← main_allocate n p w;
      main_allocate_all requests' w
  end.

(** The registry after such a run on a fresh allocator. *)
Definition registry_of (requests : list (string * Z)) : World :=
  match main_allocate_all requests init with
  | Ok w => w
  | _ => init
  end.

(** The state after [build_merkle_tree] ([w] itself if it raises). *)
Definition with_snapshot (w : World) : World :=
  match build_merkle_tree w with
  | Ok (_, w') => w'
  | _ => w
  end.

(** The state after [deallocate_resource] ([w] itself if it raises). *)
Definition after_deallocate (n : string) (w : World) : World :=
  match deallocate_resource n w with
  | Ok (_, w') => w'
  | _ => w
  end.

(** Registries used as concrete inputs below. *)
Definition registry_A5_B1_C3 : World := registry_of [("A", 5); ("B", 1); ("C", 3)]%Z.
Definition registry_A1_B3_C2 : World := registry_of [("A", 1); ("B", 3); ("C", 2)]%Z.
Definition registry_A1_A2_B3 : World := registry_of [("A", 1); ("A", 2); ("B", 3)]%Z.

(** [registry_A5_B1_C3] after [deallocate_resource "B"]: object 1 exists,
    is not queued and is not flagged. *)
Definition registry_A5_C3_without_B : World :=
  match deallocate_resource "B" registry_A5_B1_C3 with
  | Ok (_, w) => w
  | _ => init
  end.

(* ===================================================================== *)
(** ** Notions used by the statements *)
(* ===================================================================== *)

(** *** The fingerprint algorithm in the words of the specification *)

(** The specification's [digest] is the function [digest] above, applied
    to the bytes of a well-formed text. *)

(** One collapse of a level: adjacent pairs, left to right, become
    [digest(left || right)]; an unpaired last node is carried unchanged. *)
Fixpoint spec_collapse (level : list string) : list string :=
  match level with
  | l :: r :: rest => digest (l +:+ r) :: spec_collapse rest
  | [x] => [x]
  | [] => []
  end.

(** Collapse until exactly one node remains; that node is the root. *)
Inductive spec_root_of_level : list string → string → Prop :=
  | spec_root_one x : spec_root_of_level [x] x
  | spec_root_more level root :
      2 ≤ length level →
      spec_root_of_level (spec_collapse level) root →
      spec_root_of_level level root.

(** Hash every item to form the leaf level, then collapse. *)
Definition spec_build (items : list string) (root : string) : Prop :=
  spec_root_of_level (map digest items) root.

(** *** Text that can be hashed *)

(** The string holds no surrogate: [encode('utf-8')] accepts it. *)
Definition encodable (s : string) : Prop := has_surrogate s = false.

Definition is_hex_char (c : ascii) : bool :=
  ((48 <=? N_of_ascii c) && (N_of_ascii c <=? 57)
   || (97 <=? N_of_ascii c) && (N_of_ascii c <=? 102))%N.

(** Every character is one of [0-9a-f]. *)
Fixpoint all_hex (s : string) : bool :=
  match s with
  | EmptyString => true
  | String c rest => is_hex_char c && all_hex rest
  end.

(** The one-character string U+DC80, which [input()] returns for the
    input byte 80 under [surrogateescape]: bytes ED B2 80. *)
Definition lone_surrogate : string :=
  String (ascii_of_nat 237) (String (ascii_of_nat 178)
    (String (ascii_of_nat 128) EmptyString)).

(** *** The registry as callers observe it *)

(** [snapshotOrder]: the enumeration used as leaves, i.e. [resource_names]. *)
Definition snapshotOrder (w : World) : list string := resource_names w.

Definition queue_priorities (w : World) : list Z :=
  map (fun r => priority (deref (store w) r)) (resources w).

(** The record behind [r] is in the registry. *)
Definition present (w : World) (r : ref) : Prop := r ∈ resources w.

Definition is_allocated (w : World) (r : ref) : Prop :=
  allocated (deref (store w) r) = true.

(** Number of records in the registry that carry the name [n]. *)
Definition count_named (n : string) (w : World) : nat :=
  length (filter (fun r => name (deref (store w) r) = n) (resources w)).

(** *** The binary-heap invariant of [heapq] *)

Definition parent (i : nat) : nat := (i - 1) / 2.

Definition heap_ok {A} (key : A → Z) (l : list A) : Prop :=
  ∀ i x p, 0 < i → l !! i = Some x → l !! parent i = Some p → (key p ≤ key x)%Z.

Definition key_of (st : list CloudResource) (r : ref) : Z := priority (deref st r).

(** Invariant of the [_siftdown] loop on the array with [newitem] written
    at [pos]: every edge is in order except possibly the one from [pos] to
    its parent, and the children of [pos] are not below its parent. *)
Definition up_inv {A} (key : A → Z) (b : list A) (pos : nat) : Prop :=
  (∀ i x p, 0 < i → i ≠ pos → b !! i = Some x → b !! parent i = Some p →
            (key p ≤ key x)%Z)
  ∧ (∀ c x g, 0 < pos → 0 < c → parent c = pos → b !! c = Some x →
              b !! parent pos = Some g → (key g ≤ key x)%Z).

(** Invariant of the [_siftup] loop, where [pos] is the slot being
    vacated: every edge is in order except possibly those from [pos] to its
    children, and these children are not below the parent of [pos]. *)
Definition down_inv {A} (key : A → Z) (a : list A) (pos : nat) : Prop :=
  (∀ i x p, 0 < i → parent i ≠ pos → a !! i = Some x → a !! parent i = Some p →
            (key p ≤ key x)%Z)
  ∧ (∀ c x g, 0 < pos → 0 < c → parent c = pos → a !! c = Some x →
              a !! parent pos = Some g → (key g ≤ key x)%Z).

(** The child that the [_siftup] loop moves up: the right one when it
    exists and the left one is not smaller than it, else the left one. *)
Definition smaller_child {A} (lt : A → A → bool) (heap : list A) (pos : nat) : nat :=
  match heap !! (2 * pos + 1), heap !! (2 * pos + 2) with
  | Some c, Some r => if negb (lt c r) then 2 * pos + 2 else 2 * pos + 1
  | _, _ => 2 * pos + 1
  end.

(** The value of [deallocated_resource] after the drain loop has seen the
    references [popped] in this order. *)
Definition last_match (st : list CloudResource) (resource_name : string)
    (popped : list ref) (d : option ref) : option ref :=
  fold_left
    (fun d r => if String.eqb (name (deref st r)) resource_name then Some r else d)
    popped d.

(** *** States reachable through the allocator's interface *)

Inductive step : World → World → Prop :=
  | step_new n p a w :
      step w (CloudResource_new n p a w).2
  | step_allocate r w w' :
      r < length (store w) →
      allocate_resource r w = Ok (tt, w') →
      step w w'
  | step_deallocate n w d w' :
      deallocate_resource n w = Ok (d, w') →
      step w w'
  | step_build w w' :
      build_merkle_tree w = Ok (tt, w') →
      step w w'
  | step_verify w b w' :
      verify_merkle_tree w = Ok (b, w') →
      step w w'
  | step_print s w :
      step w (print s w).

Definition reachable (w : World) : Prop := rtc step init w.

(** What every reachable state satisfies: queued references point into
    the store, the queue is a heap on priorities, holds no object twice,
    and every queued object is flagged allocated. *)
Record world_ok (w : World) : Prop :=
  { ok_refs : Forall (fun r => r < length (store w)) (resources w);
    ok_heap : heap_ok (key_of (store w)) (resources w);
    ok_nodup : NoDup (resources w);
    ok_flags : Forall (is_allocated w) (resources w) }.

(** A stored snapshot holds the root of the names it was built from. *)
Definition snapshot_ok (w : World) : Prop :=
  ∀ t, merkle_tree w = Some t → build_tree (data t) = Ok (tree t).

(** The names that stand for [data] one level up: each adjacent pair of
    names is replaced by the single name made of their two digests, an
    unpaired last name is kept. *)
Fixpoint pair_names (data : list string) : list string :=
  match data with
  | x :: y :: rest => (digest x +:+ digest y) :: pair_names rest
  | [x] => [x]
  | [] => []
  end.

(** The state after a request through [main] ([w] itself if it raises). *)
Definition after_main_allocate (n : string) (p : Z) (w : World) : World :=
  match main_allocate n p w with
  | Ok (_, w') => w'
  | _ => w
  end.

(** A, B, C allocated in priority order and snapshotted; then D allocated
    and deallocated again. *)
Definition registry_ABC_snapshot_D_in_out : World :=
  after_deallocate "D"
    (after_main_allocate "D" 4
       (with_snapshot (registry_of [("A", 1); ("B", 2); ("C", 3)]%Z))).

(** A registry that held the single record "A" when its snapshot was
    taken and has been emptied since. *)
Definition registry_emptied_after_snapshot : World :=
  after_deallocate "A" (with_snapshot (registry_of [("A", 1%Z)])).

(** A registry holding one record whose name is [lone_surrogate]. *)
Definition registry_surrogate : World := registry_of [(lone_surrogate, 1%Z)].

(** A registry that held the single record "A" when its snapshot was
    taken, to which a record named [lone_surrogate] was added since. *)
Definition registry_surrogate_after_snapshot : World :=
  after_main_allocate lone_surrogate 2 (with_snapshot (registry_of [("A", 1%Z)])).

(* ===================================================================== *)
(** * Proofs *)
(* ===================================================================== *)

(** ** The hash primitive agrees with published SHA-256 vectors *)

Example sha256_constants :
  length SHA256.K = 64 ∧ SHA256.K !! 0 = Some 0x428a2f98%Z
  ∧ SHA256.K !! 63 = Some 0xc67178f2%Z
  ∧ length SHA256.H0 = 8 ∧ SHA256.H0 !! 0 = Some 0x6a09e667%Z
  ∧ SHA256.H0 !! 7 = Some 0x5be0cd19%Z.
Proof. vm_compute. by split_and!. Qed.

Example sha256_empty :
  SHA256.hexdigest "" = "e3b0c44298fc1c149afbf4c8996fb92427ae41e4649b934ca495991b7852b855"%string.
Proof. vm_compute. reflexivity. Qed.

Example sha256_abc :
  SHA256.hexdigest "abc" = "ba7816bf8f01cfea414140de5dae2223b00361a396177a9cb410ff61f20015ad"%string.
Proof. vm_compute. reflexivity. Qed.

Example sha256_two_blocks :
  SHA256.hexdigest "abcdbcdecdefdefgefghfghighijhijkijkljklmklmnlmnomnopnopq"
  = "248d6a61d20638b8e5c026930c3e6039a33ce45964ff2167f6ecedd419db06c1"%string.
Proof. vm_compute. reflexivity. Qed.

(** [encode_utf8] rejects exactly the surrogate range: U+D7FF (ED 9F BF)
    and U+E000 (EE 80 80) are encoded, U+D800 (ED A0 80), U+DC80 and U+DFFF
    (ED BF BF) are refused; a Hangul syllable, whose encoding starts with
    the byte ED, is hashed as [hashlib] hashes it. *)
Example encode_utf8_surrogate_range :
  let str3 (a b c : nat) : string :=
    String (ascii_of_nat a) (String (ascii_of_nat b)
      (String (ascii_of_nat c) EmptyString)) in
  encode_utf8 (str3 237 159 191) = Ok (str3 237 159 191)
  ∧ encode_utf8 (str3 238 128 128) = Ok (str3 238 128 128)
  ∧ encode_utf8 (str3 237 160 128) = Raise UnicodeEncodeError
  ∧ encode_utf8 lone_surrogate = Raise UnicodeEncodeError
  ∧ encode_utf8 (str3 237 191 191) = Raise UnicodeEncodeError
  ∧ hash ("A" +:+ lone_surrogate) = Raise UnicodeEncodeError
  ∧ hash (str3 237 149 156)
    = Ok "89233692031a62c60e6ef602b4cd9f3cb52a6dd8013fe9873c36101a7e3920e0".
Proof. vm_compute. by split_and!. Qed.

(** ** Error-monad bookkeeping *)

Lemma bind_Ok {A B} (m : result A) (f : A → result B) a :
  m = Ok a → m ≫= f = f a.
Proof. by intros ->. Qed.

Lemma getitem_Ok {A} (l : list A) i x : l !! i = Some x → getitem l i = Ok x.
Proof. unfold getitem. by intros ->. Qed.

Lemma setitem_Ok {A} (l : list A) i x :
  i < length l → setitem l i x = Ok (<[i:=x]> l).
Proof. unfold setitem. intros H. apply Nat.ltb_lt in H. by rewrite H. Qed.

(** ** Digests are hexadecimal text, which can always be encoded *)

Lemma land_255_range x : (0 ≤ Z.land x 0xFF < 256)%Z.
Proof.
  change 0xFF%Z with (Z.ones 8). rewrite Z.land_ones by lia.
  apply Z.mod_pos_bound. lia.
Qed.

Lemma be_bytes_range n x :
  Forall (λ b, 0 ≤ b < 256)%Z (SHA256.be_bytes n x).
Proof.
  induction n as [|n IH]; cbn [SHA256.be_bytes]; constructor; [|done].
  apply land_255_range.
Qed.

Lemma digest_bytes_range msg :
  Forall (λ b, 0 ≤ b < 256)%Z (SHA256.digest msg).
Proof.
  unfold SHA256.digest. cbv zeta.
  generalize (fold_left SHA256.compress
                (SHA256.blocks (length (SHA256.pad msg) / 64) (SHA256.pad msg))
                SHA256.H0) as h.
  induction h as [|x h IH]; cbn [flat_map]; [constructor|].
  apply Forall_app. split; [apply be_bytes_range|done].
Qed.

Lemma hex_digit_is_hex d :
  (0 ≤ d < 16)%Z → is_hex_char (SHA256.hex_digit d) = true.
Proof.
  intros H.
  assert (d = 0 ∨ d = 1 ∨ d = 2 ∨ d = 3 ∨ d = 4 ∨ d = 5 ∨ d = 6 ∨ d = 7
          ∨ d = 8 ∨ d = 9 ∨ d = 10 ∨ d = 11 ∨ d = 12 ∨ d = 13 ∨ d = 14
          ∨ d = 15)%Z as Hd by lia.
  repeat (destruct Hd as [->|Hd]; [reflexivity|]). by subst.
Qed.

Lemma hex_all_hex bs :
  Forall (λ b, 0 ≤ b < 256)%Z bs → all_hex (SHA256.hex bs) = true.
Proof.
  induction 1 as [|b bs Hb _ IH]; [done|].
  cbn [SHA256.hex all_hex]. rewrite IH, !hex_digit_is_hex; [done| |].
  - change 0xF%Z with (Z.ones 4). rewrite Z.land_ones by lia.
    apply Z.mod_pos_bound. lia.
  - rewrite Z.shiftr_div_pow2 by lia. split.
    + apply Z.div_pos; lia.
    + apply Z.div_lt_upper_bound; lia.
Qed.

Lemma digest_all_hex s : all_hex (digest s) = true.
Proof. apply hex_all_hex, digest_bytes_range. Qed.

Lemma all_hex_app a b : all_hex (a +:+ b) = all_hex a && all_hex b.
Proof.
  induction a as [|c a IH]; [done|].
  change (String c a +:+ b) with (String c (a +:+ b)).
  cbn [all_hex]. by rewrite IH, andb_assoc.
Qed.

Lemma is_hex_char_not_lead c d : is_hex_char c = true → surrogate_lead c d = false.
Proof.
  unfold is_hex_char, surrogate_lead. intros H.
  destruct (N.eqb_spec (N_of_ascii c) 0xED) as [Heq|]; [|done].
  rewrite Heq in H. done.
Qed.

Lemma all_hex_encodable s : all_hex s = true → encodable s.
Proof.
  unfold encodable. induction s as [|c s IH]; [done|].
  cbn [all_hex has_surrogate]. intros [Hc Hs]%andb_true_iff.
  rewrite (IH Hs), orb_false_r.
  destruct s; [done|]. by apply is_hex_char_not_lead.
Qed.

(** ** MerkleTree.hash *)

Lemma hash_encodable item : encodable item → hash item = Ok (digest item).
Proof. unfold hash, encode_utf8, encodable. by intros ->. Qed.

Lemma hash_not_encodable item :
  ¬ encodable item → hash item = Raise UnicodeEncodeError.
Proof.
  unfold hash, encode_utf8, encodable.
  by destruct (has_surrogate item).
Qed.

Lemma hash_of_digests l r :
  all_hex l = true → all_hex r = true →
  hash (l +:+ r) = Ok (digest (l +:+ r)).
Proof.
  intros Hl Hr. apply hash_encodable, all_hex_encodable.
  by rewrite all_hex_app, Hl, Hr.
Qed.

(** ** MerkleTree.build_tree *)

Lemma pair_induction {A} (P : list A → Prop) :
  P [] → (∀ x, P [x]) → (∀ x y l, P l → P (x :: y :: l)) → ∀ l, P l.
Proof.
  intros Hnil Hone Hstep l.
  assert (P l ∧ ∀ x, P (x :: l)) as [? _]; [|done].
  induction l as [|a l [IH1 IH2]]; split; auto.
Qed.

(** The first loop hashes every item, or stops at an item that cannot be
    encoded. *)
Lemma leaves_loop data : ∀ acc,
  Forall encodable data →
  for_each data (fun tree item => h ← hash item; Ok (append tree h)) acc
  = Ok (acc ++ map digest data).
Proof.
  induction data as [|x data IH]; intros acc Hall; cbn [for_each map].
  - by rewrite app_nil_r.
  - apply Forall_cons_1 in Hall as [Hx Hall].
    rewrite (hash_encodable x Hx). cbn [mbind result_bind].
    rewrite IH by done. unfold append. by rewrite <- app_assoc.
Qed.

Lemma leaves_loop_raises data : ∀ acc,
  ¬ Forall encodable data →
  for_each data (fun tree item => h ← hash item; Ok (append tree h)) acc
  = Raise UnicodeEncodeError.
Proof.
  induction data as [|x data IH]; intros acc Hnot; cbn [for_each].
  - destruct Hnot. constructor.
  - destruct (has_surrogate x) eqn:Hx.
    + rewrite hash_not_encodable; [done|]. unfold encodable. congruence.
    + rewrite (hash_encodable x Hx). cbn [mbind result_bind].
      apply IH. intros Hall. apply Hnot. by constructor.
Qed.

Lemma half_step n : (S (S n) + 1) / 2 = S ((n + 1) / 2).
Proof.
  replace (S (S n) + 1) with ((n + 1) + 1 * 2) by lia.
  rewrite Nat.div_add by lia. lia.
Qed.

Lemma spec_collapse_length level :
  length (spec_collapse level) = (length level + 1) / 2.
Proof.
  induction level as [| x | x y l IH] using pair_induction; try done.
  cbn [spec_collapse length]. by rewrite IH, half_step.
Qed.

Lemma spec_collapse_Forall (P : string → Prop) level :
  (∀ s, P (digest s)) → Forall P level → Forall P (spec_collapse level).
Proof.
  intros Hhash.
  induction level as [| x | x y l IH] using pair_induction; intros Hall.
  - constructor.
  - done.
  - cbn [spec_collapse]. constructor; [apply Hhash|].
    apply IH. by do 2 apply Forall_cons_1 in Hall as [_ Hall].
Qed.

Lemma build_tree_pair_two tree i temp j l r :
  j + 1 < i → tree !! j = Some l → tree !! (j + 1) = Some r →
  all_hex l = true → all_hex r = true →
  build_tree_pair tree i temp j = Ok (temp ++ [digest (l +:+ r)]).
Proof.
  intros Hj Hl Hr Hhl Hhr. unfold build_tree_pair.
  apply Nat.ltb_lt in Hj. rewrite Hj.
  rewrite (getitem_Ok _ _ _ Hl), (getitem_Ok _ _ _ Hr).
  cbn [mbind result_bind]. by rewrite hash_of_digests.
Qed.

Lemma build_tree_pair_one tree i temp j x :
  i ≤ j + 1 → tree !! j = Some x →
  build_tree_pair tree i temp j = Ok (temp ++ [x]).
Proof.
  intros Hj Hx. unfold build_tree_pair.
  apply Nat.ltb_ge in Hj. rewrite Hj.
  by rewrite (getitem_Ok _ _ _ Hx).
Qed.

(** The inner [for] loop computes one collapse of a level of digests. *)
Lemma for_pairs_collapse suf : ∀ pre temp k,
  length pre = 2 * k →
  Forall (λ s, all_hex s = true) suf →
  for_each (map (fun j => 0 + j * 2) (seq k ((length suf + 1) / 2)))
           (build_tree_pair (pre ++ suf) (length (pre ++ suf))) temp
  = Ok (temp ++ spec_collapse suf).
Proof.
  induction suf as [| x | x y l IH] using pair_induction;
    intros pre temp k Hk Hhex.
  - cbn. by rewrite app_nil_r.
  - change ((length [x] + 1) / 2) with 1. cbn [seq map for_each].
    rewrite (build_tree_pair_one _ _ _ _ x); [done | |].
    + rewrite length_app. cbn [length]. lia.
    + rewrite lookup_app_r by lia. by replace (0 + k * 2 - length pre) with 0 by lia.
  - replace ((length (x :: y :: l) + 1) / 2) with (S ((length l + 1) / 2))
      by (cbn [length]; by rewrite half_step).
    apply Forall_cons_1 in Hhex as [Hx Hhex].
    apply Forall_cons_1 in Hhex as [Hy Hhex].
    cbn [seq map for_each].
    rewrite (build_tree_pair_two _ _ _ _ x y).
    + specialize (IH (pre ++ [x; y]) (temp ++ [digest (x +:+ y)]) (S k)).
      rewrite <- !app_assoc in IH. cbn [app] in IH.
      cbn [mbind result_bind].
      rewrite IH by (done || (rewrite length_app; cbn [length]; lia)).
      done.
    + rewrite length_app. cbn [length]. lia.
    + rewrite lookup_app_r by lia. by replace (0 + k * 2 - length pre) with 0 by lia.
    + rewrite lookup_app_r by lia. by replace (0 + k * 2 + 1 - length pre) with 1 by lia.
    + done.
    + done.
Qed.

Lemma for_range_collapse tree :
  Forall (λ s, all_hex s = true) tree →
  for_each (range 0 (length tree) 2) (build_tree_pair tree (length tree)) []
  = Ok (spec_collapse tree).
Proof.
  intros Hhex.
  unfold range. replace (length tree - 0 + (2 - 1)) with (length tree + 1) by lia.
  by apply (for_pairs_collapse tree [] [] 0).
Qed.

Lemma build_tree_while_more fuel tree i :
  1 < i →
  build_tree_while (S fuel) tree i
  = for_each (range 0 i 2) (build_tree_pair tree i) []
      ≫= λ temp, build_tree_while fuel temp (length temp).
Proof. intros Hi. apply Nat.ltb_lt in Hi. cbn [build_tree_while]. by rewrite Hi. Qed.

Lemma build_tree_while_done fuel tree i :
  i ≤ 1 → build_tree_while fuel tree i = Ok tree.
Proof.
  intros Hi. apply Nat.ltb_ge in Hi.
  destruct fuel; cbn [build_tree_while]; by rewrite Hi.
Qed.

(** With as much fuel as the level is long, the [while] loop ends on the
    single node that the specification calls the root. *)
Lemma build_tree_while_root fuel : ∀ tree,
  tree ≠ [] → length tree ≤ fuel →
  Forall (λ s, all_hex s = true) tree →
  ∃ root, build_tree_while fuel tree (length tree) = Ok [root]
          ∧ spec_root_of_level tree root.
Proof.
  induction fuel as [|fuel IH]; intros tree Hne Hlen Hhex.
  - destruct tree; [done | simpl in Hlen; lia].
  - destruct tree as [|x [|y tree]]; [done | |].
    + exists x. split; [by apply build_tree_while_done | constructor].
    + set (lvl := x :: y :: tree) in *.
      assert (2 ≤ length lvl) as H2 by (cbn; lia).
      rewrite build_tree_while_more, for_range_collapse by (done || lia).
      cbn [mbind result_bind].
      pose proof (spec_collapse_length lvl) as Hl.
      assert ((length lvl + 1) / 2 < length lvl) as Hlt.
      { apply Nat.Div0.div_lt_upper_bound. lia. }
      destruct (IH (spec_collapse lvl)) as (root & Hrun & Hroot).
      * subst lvl. done.
      * lia.
      * apply spec_collapse_Forall; [apply digest_all_hex|done].
      * exists root. split; [done|]. by constructor.
Qed.

Lemma spec_root_of_level_functional level r1 r2 :
  spec_root_of_level level r1 → spec_root_of_level level r2 → r1 = r2.
Proof.
  intros H1. revert r2. induction H1 as [x | level root Hlen _ IH]; intros r2 H2.
  - inversion H2; subst; [done | simpl in *; lia].
  - inversion H2; subst; [simpl in *; lia | auto].
Qed.

Lemma build_tree_spec data :
  data ≠ [] → Forall encodable data →
  ∃ root, build_tree data = Ok root ∧ spec_build data root.
Proof.
  intros Hne Henc. unfold build_tree, spec_build.
  rewrite leaves_loop by done. cbn [mbind result_bind app].
  destruct (build_tree_while_root (length data) (map digest data))
    as (root & Hrun & Hroot).
  - by destruct data.
  - by rewrite length_map.
  - apply Forall_forall. intros s Hs.
    apply list_elem_of_In, in_map_iff in Hs as (x & <- & _).
    apply digest_all_hex.
  - rewrite length_map in Hrun. rewrite Hrun. by exists root.
Qed.

Lemma build_tree_empty : build_tree [] = Raise IndexError.
Proof. reflexivity. Qed.

Lemma build_tree_unencodable data :
  ¬ Forall encodable data → build_tree data = Raise UnicodeEncodeError.
Proof. intros Hnot. unfold build_tree. by rewrite leaves_loop_raises. Qed.

(** What [build_tree] does, by the shape of its argument. *)
Lemma build_tree_returns data root :
  build_tree data = Ok root → data ≠ [] ∧ Forall encodable data.
Proof.
  intros Hrun. split.
  - intros ->. by rewrite build_tree_empty in Hrun.
  - destruct (decide (Forall encodable data)) as [|Hnot]; [done|].
    by rewrite build_tree_unencodable in Hrun.
Qed.

Lemma resource_names_nonempty w : resources w ≠ [] → resource_names w ≠ [].
Proof. unfold resource_names. destruct (resources w); [done|discriminate]. Qed.

(** ** heapq: [heappush] and [heappop] keep the heap invariant *)

Ltac parent_lia :=
  unfold parent in *; zify; Z.to_euclidean_division_equations; lia.

Lemma parent_lt i : 0 < i → parent i < i.
Proof. intros. parent_lia. Qed.

Lemma parent_children c pos :
  0 < c → parent c = pos → c = 2 * pos + 1 ∨ c = 2 * pos + 2.
Proof. intros. parent_lia. Qed.

Lemma parent_left pos : parent (2 * pos + 1) = pos.
Proof. parent_lia. Qed.

Lemma parent_right pos : parent (2 * pos + 2) = pos.
Proof. parent_lia. Qed.

Lemma lookup_insert_case {A} (l : list A) i j x :
  i < length l →
  <[i:=x]> l !! j = if decide (j = i) then Some x else l !! j.
Proof.
  intros Hi. case_decide as Hj.
  - subst. by apply list_lookup_insert_eq.
  - by apply list_lookup_insert_ne.
Qed.

Tactic Notation "ins_ne" :=
  rewrite list_lookup_insert_ne by lia.
Tactic Notation "ins_ne" "in" hyp(H) :=
  rewrite list_lookup_insert_ne in H by lia.
Tactic Notation "ins_eq" :=
  rewrite list_lookup_insert_eq by (rewrite ?length_insert; lia).
Tactic Notation "ins_eq" "in" hyp(H) :=
  rewrite list_lookup_insert_eq in H by (rewrite ?length_insert; lia).

Section heapq_correct.
Context {A : Type} (lt : A → A → bool) (key : A → Z).
Hypothesis lt_key : ∀ a b, lt a b = (key a <? key b)%Z.

Lemma siftdown_loop_done fuel (heap : list A) pos newitem :
  pos = 0 → pos < length heap →
  _siftdown_loop lt fuel heap 0 pos newitem = Ok (<[pos:=newitem]> heap).
Proof.
  intros -> Hlen. destruct fuel; cbn [_siftdown_loop];
    replace (0 <? 0) with false by done; by apply setitem_Ok.
Qed.

Lemma siftdown_loop_more fuel (heap : list A) pos newitem p :
  0 < pos → heap !! parent pos = Some p →
  _siftdown_loop lt (S fuel) heap 0 pos newitem
  = if lt newitem p
    then setitem heap pos p
           ≫= λ heap, _siftdown_loop lt fuel heap 0 (parent pos) newitem
    else setitem heap pos newitem.
Proof.
  intros Hpos Hp. cbn [_siftdown_loop].
  apply Nat.ltb_lt in Hpos. rewrite Hpos.
  fold (parent pos). by rewrite (getitem_Ok _ _ _ Hp).
Qed.

Lemma up_inv_root (b : list A) : up_inv key b 0 → heap_ok key b.
Proof. intros [H1 _] i x p Hi. apply H1; [done | lia]. Qed.

Lemma up_inv_settled (b : list A) pos x p :
  up_inv key b pos → b !! pos = Some x → b !! parent pos = Some p →
  (key p ≤ key x)%Z → heap_ok key b.
Proof.
  intros [H1 _] Hx Hp Hle i y q Hi Hy Hq.
  destruct (decide (i = pos)) as [->|Hne].
  - by simplify_eq.
  - by eapply H1.
Qed.

(** Moving the parent down keeps the invariant, one level higher. *)
Lemma up_inv_step (heap : list A) pos newitem p :
  0 < pos → pos < length heap →
  heap !! parent pos = Some p →
  (key newitem < key p)%Z →
  up_inv key (<[pos:=newitem]> heap) pos →
  up_inv key (<[parent pos:=newitem]> (<[pos:=p]> heap)) (parent pos).
Proof.
  intros Hpos Hlen Hp Hlt [H1 H2].
  pose proof (parent_lt pos Hpos) as Hpp.
  assert (∀ i x q, 0 < i → i ≠ pos → parent i ≠ pos →
            heap !! i = Some x → heap !! parent i = Some q →
            (key q ≤ key x)%Z) as H1'.
  { intros i x q Hi Hne Hnp Hx Hq. apply (H1 i x q Hi Hne).
    - by ins_ne.
    - by ins_ne. }
  assert (∀ c x, 0 < c → parent c = pos → heap !! c = Some x →
            (key p ≤ key x)%Z) as H2'.
  { intros c x Hc Hcp Hx. pose proof (parent_lt c Hc).
    apply (H2 c x p Hpos Hc Hcp).
    - by ins_ne.
    - by ins_ne. }
  split.
  - intros i x q Hi Hne Hx Hq. ins_ne in Hx.
    destruct (decide (i = pos)) as [->|Hip].
    + ins_eq in Hx. ins_eq in Hq. simplify_eq. lia.
    + ins_ne in Hx.
      destruct (decide (parent i = parent pos)) as [Heq|Hnp].
      * rewrite Heq in Hq. ins_eq in Hq. injection Hq as <-.
        assert (key p ≤ key x)%Z; [|lia].
        apply (H1' i x p); [done|done|lia|done|by rewrite Heq].
      * ins_ne in Hq.
        destruct (decide (parent i = pos)) as [Hc|Hnc].
        -- rewrite Hc in Hq. ins_eq in Hq. injection Hq as <-.
           by apply (H2' i x).
        -- ins_ne in Hq. by apply (H1' i x q).
  - intros c x g Hpp0 Hc Hcp Hx Hg.
    pose proof (parent_lt _ Hpp0) as Hgp.
    pose proof (parent_lt _ Hc) as Hcc.
    ins_ne in Hg. ins_ne in Hg. ins_ne in Hx.
    assert (key g ≤ key p)%Z as Hgle.
    { apply (H1' (parent pos) p g); [done|lia|lia|done|done]. }
    destruct (decide (c = pos)) as [->|Hcpos].
    + ins_eq in Hx. by injection Hx as <-.
    + ins_ne in Hx.
      assert (key p ≤ key x)%Z; [|lia].
      apply (H1' c x p); [done|done|lia|done|by rewrite Hcp].
Qed.

Lemma siftdown_loop_ok fuel : ∀ (heap : list A) pos newitem,
  pos ≤ fuel → pos < length heap →
  up_inv key (<[pos:=newitem]> heap) pos →
  ∃ heap', _siftdown_loop lt fuel heap 0 pos newitem = Ok heap'
           ∧ heap_ok key heap'
           ∧ heap' ≡ₚ <[pos:=newitem]> heap.
Proof.
  induction fuel as [|fuel IH]; intros heap pos newitem Hfuel Hlen Hinv.
  - assert (pos = 0) as -> by lia.
    exists (<[0:=newitem]> heap). split_and!; [|by apply up_inv_root|done].
    by apply siftdown_loop_done.
  - destruct (decide (pos = 0)) as [->|Hpos].
    { exists (<[0:=newitem]> heap). split_and!; [|by apply up_inv_root|done].
      by apply siftdown_loop_done. }
    assert (0 < pos) as Hpos' by lia.
    pose proof (parent_lt pos Hpos') as Hpp.
    destruct (lookup_lt_is_Some_2 heap (parent pos)) as [p Hp]; [lia|].
    rewrite (siftdown_loop_more _ _ _ _ p) by done.
    rewrite lt_key. destruct (Z.ltb_spec (key newitem) (key p)) as [Hlt|Hge].
    + rewrite setitem_Ok by done. cbn [mbind result_bind].
      destruct (IH (<[pos:=p]> heap) (parent pos) newitem) as (heap' & Hrun & Hok & Hperm).
      * lia.
      * rewrite length_insert. lia.
      * by apply up_inv_step.
      * exists heap'. split_and!; [done..|].
        rewrite Hperm.
        rewrite <- (list_insert_insert_eq heap pos p newitem).
        apply Permutation_insert_swap.
        -- by ins_eq.
        -- by ins_ne.
    + rewrite setitem_Ok by done.
      exists (<[pos:=newitem]> heap). split_and!; [done| |done].
      apply (up_inv_settled _ pos newitem p); [done| | |done].
      * by apply list_lookup_insert_eq.
      * rewrite list_lookup_insert_ne by lia. done.
Qed.

Lemma siftdown_ok (heap : list A) pos :
  pos < length heap → up_inv key heap pos →
  ∃ heap', _siftdown lt heap 0 pos = Ok heap'
           ∧ heap_ok key heap' ∧ heap' ≡ₚ heap.
Proof.
  intros Hlen Hinv.
  destruct (lookup_lt_is_Some_2 heap pos) as [x Hx]; [done|].
  unfold _siftdown. rewrite (getitem_Ok _ _ _ Hx). cbn [mbind result_bind].
  destruct (siftdown_loop_ok pos heap pos x) as (heap' & Hrun & Hok & Hperm);
    [done | done | by rewrite list_insert_id | ].
  exists heap'. by rewrite list_insert_id in Hperm.
Qed.

Lemma heappush_ok (heap : list A) item :
  heap_ok key heap →
  ∃ heap', heappush lt heap item = Ok heap'
           ∧ heap_ok key heap' ∧ heap' ≡ₚ item :: heap.
Proof.
  intros Hheap. unfold heappush, append.
  destruct (siftdown_ok (heap ++ [item]) (length (heap ++ [item]) - 1))
    as (heap' & Hrun & Hok & Hperm).
  - rewrite length_app. cbn. lia.
  - rewrite length_app. cbn [length].
    replace (length heap + 1 - 1) with (length heap) by lia.
    split.
    + intros i x p Hi Hne Hx Hp.
      pose proof (lookup_lt_Some _ _ _ Hx) as Hlt.
      rewrite length_app in Hlt. cbn in Hlt.
      pose proof (parent_lt i Hi).
      rewrite lookup_app_l in Hx by lia.
      rewrite lookup_app_l in Hp by lia.
      by eapply Hheap.
    + intros c x g _ Hc Hcp Hx _.
      pose proof (lookup_lt_Some _ _ _ Hx) as Hlt.
      rewrite length_app in Hlt. cbn in Hlt.
      pose proof (parent_lt c Hc). lia.
  - exists heap'. split_and!; [done..|].
    rewrite Hperm. by rewrite Permutation_app_comm.
Qed.

(** Pushing an item that is not below anything in the array appends it. *)
Lemma heappush_largest (heap : list A) item :
  Forall (λ y, key y ≤ key item)%Z heap →
  heappush lt heap item = Ok (heap ++ [item]).
Proof.
  intros Hall. unfold heappush, append, _siftdown.
  rewrite length_app. cbn [length].
  replace (length heap + 1 - 1) with (length heap) by lia.
  assert ((heap ++ [item]) !! length heap = Some item) as Hitem.
  { rewrite lookup_app_r by lia. by rewrite Nat.sub_diag. }
  rewrite (getitem_Ok _ _ _ Hitem). cbn [mbind result_bind].
  destruct (decide (length heap = 0)) as [H0|Hpos].
  - rewrite siftdown_loop_done; [|done|rewrite length_app; cbn; lia].
    by rewrite list_insert_id.
  - destruct (length heap) as [|n] eqn:Hn; [done|].
    pose proof (parent_lt (S n) ltac:(lia)) as Hpp.
    destruct (lookup_lt_is_Some_2 heap (parent (S n))) as [p Hp]; [lia|].
    rewrite (siftdown_loop_more _ _ _ _ p);
      [|lia|by rewrite lookup_app_l by lia].
    rewrite lt_key.
    assert (key p ≤ key item)%Z as Hle.
    { rewrite Forall_forall in Hall. apply Hall.
      by eapply list_elem_of_lookup_2. }
    replace (key item <? key p)%Z with false by (symmetry; apply Z.ltb_ge; lia).
    rewrite setitem_Ok by (rewrite length_app; cbn; lia).
    by rewrite list_insert_id.
Qed.

(** *** [_siftup]: the vacated slot travels down to a leaf *)

Lemma siftup_loop_leaf fuel (heap : list A) endpos pos :
  endpos ≤ 2 * pos + 1 →
  _siftup_loop lt fuel heap endpos pos (2 * pos + 1) = Ok (heap, pos).
Proof.
  intros Hleaf. apply Nat.ltb_ge in Hleaf.
  destruct fuel; cbn [_siftup_loop]; by rewrite Hleaf.
Qed.

Lemma siftup_loop_more fuel (heap : list A) pos child :
  2 * pos + 1 < length heap →
  heap !! smaller_child lt heap pos = Some child →
  _siftup_loop lt (S fuel) heap (length heap) pos (2 * pos + 1)
  = _siftup_loop lt fuel (<[pos:=child]> heap) (length heap)
      (smaller_child lt heap pos) (2 * smaller_child lt heap pos + 1).
Proof.
  intros Hlen Hchild. cbn [_siftup_loop].
  pose proof Hlen as Hlen'. apply Nat.ltb_lt in Hlen'. rewrite Hlen'.
  destruct (lookup_lt_is_Some_2 heap (2 * pos + 1)) as [c Hc]; [done|].
  unfold smaller_child in *. rewrite Hc in *.
  replace (2 * pos + 1 + 1) with (2 * pos + 2) by lia.
  destruct (Nat.ltb_spec (2 * pos + 2) (length heap)) as [Hr|Hr].
  - destruct (lookup_lt_is_Some_2 heap (2 * pos + 2)) as [r Hrv]; [done|].
    rewrite Hrv in *. rewrite (getitem_Ok _ _ _ Hc), (getitem_Ok _ _ _ Hrv).
    cbn [mbind result_bind].
    rewrite (getitem_Ok _ _ _ Hchild). cbn [mbind result_bind].
    rewrite setitem_Ok by lia. done.
  - rewrite (proj2 (lookup_ge_None heap (2 * pos + 2))) in * by lia.
    cbn [mbind result_bind].
    rewrite (getitem_Ok _ _ _ Hchild). cbn [mbind result_bind].
    rewrite setitem_Ok by lia. done.
Qed.

Lemma smaller_child_spec (heap : list A) pos :
  2 * pos + 1 < length heap →
  ∃ child, heap !! smaller_child lt heap pos = Some child
    ∧ parent (smaller_child lt heap pos) = pos
    ∧ pos < smaller_child lt heap pos < length heap
    ∧ ∀ c x, 0 < c → parent c = pos → heap !! c = Some x →
             (key child ≤ key x)%Z.
Proof.
  intros Hlen.
  destruct (lookup_lt_is_Some_2 heap (2 * pos + 1)) as [c Hc]; [done|].
  unfold smaller_child. rewrite Hc.
  destruct (heap !! (2 * pos + 2)) as [r|] eqn:Hr.
  - pose proof (lookup_lt_Some _ _ _ Hr) as Hrl.
    rewrite lt_key. destruct (Z.ltb_spec (key c) (key r)) as [Hlt|Hge]; cbn [negb].
    + exists c. split_and!; [done|apply parent_left|lia|lia|].
      intros c' x Hc' Hp Hx.
      destruct (parent_children c' pos Hc' Hp) as [->| ->]; simplify_eq; lia.
    + exists r. split_and!; [done|apply parent_right|lia|lia|].
      intros c' x Hc' Hp Hx.
      destruct (parent_children c' pos Hc' Hp) as [->| ->]; simplify_eq; lia.
  - exists c. split_and!; [done|apply parent_left|lia|lia|].
    intros c' x Hc' Hp Hx.
    destruct (parent_children c' pos Hc' Hp) as [->| ->]; simplify_eq; lia.
Qed.

(** Moving the smaller child up keeps the invariant, one level lower. *)
Lemma down_inv_step (heap : list A) pos child :
  2 * pos + 1 < length heap →
  heap !! smaller_child lt heap pos = Some child →
  down_inv key heap pos →
  down_inv key (<[pos:=child]> heap) (smaller_child lt heap pos).
Proof.
  intros Hlen Hchild [H1 H2].
  destruct (smaller_child_spec heap pos Hlen) as (child' & Hch & Hpar & Hrange & Hmin).
  rewrite Hchild in Hch. injection Hch as <-.
  set (s := smaller_child lt heap pos) in *.
  split.
  - intros i x q Hi Hnp Hx Hq.
    pose proof (parent_lt i Hi) as Hpi.
    destruct (decide (i = pos)) as [->|Hip].
    + ins_eq in Hx. injection Hx as <-. ins_ne in Hq.
      apply (H2 s child q); [lia|lia|done|done|done].
    + ins_ne in Hx.
      destruct (decide (parent i = pos)) as [Hc|Hnc].
      * rewrite Hc in Hq. ins_eq in Hq. injection Hq as <-.
        by apply (Hmin i x).
      * ins_ne in Hq. by apply (H1 i x q).
  - intros c x g Hs Hc Hcp Hx Hg.
    pose proof (parent_lt c Hc) as Hpc.
    rewrite Hpar in Hg. ins_eq in Hg. injection Hg as <-.
    ins_ne in Hx.
    apply (H1 c x child); [done|lia|done|by rewrite Hcp].
Qed.

Lemma siftup_loop_ok fuel : ∀ (heap : list A) pos,
  length heap - pos ≤ fuel → pos < length heap →
  down_inv key heap pos →
  ∃ heap' pos',
    _siftup_loop lt fuel heap (length heap) pos (2 * pos + 1) = Ok (heap', pos')
    ∧ length heap' = length heap
    ∧ pos' < length heap ≤ 2 * pos' + 1
    ∧ down_inv key heap' pos'
    ∧ ∀ newitem, <[pos':=newitem]> heap' ≡ₚ <[pos:=newitem]> heap.
Proof.
  induction fuel as [|fuel IH]; intros heap pos Hfuel Hlen Hinv; [lia|].
  destruct (decide (length heap ≤ 2 * pos + 1)) as [Hleaf|Hchild].
  { exists heap, pos. rewrite siftup_loop_leaf by done. split_and!; done || lia. }
  destruct (smaller_child_spec heap pos) as (child & Hch & Hpar & Hrange & Hmin); [lia|].
  rewrite (siftup_loop_more _ _ _ child) by (done || lia).
  destruct (IH (<[pos:=child]> heap) (smaller_child lt heap pos))
    as (heap' & pos' & Hrun & Hl & Hp & Hinv' & Hperm).
  - rewrite length_insert. lia.
  - rewrite length_insert. lia.
  - apply down_inv_step; [lia|done|done].
  - rewrite length_insert in *. exists heap', pos'.
    split_and!; [done|done|lia|lia|done|].
    intros newitem. rewrite Hperm.
    rewrite <- (list_insert_insert_eq heap pos child newitem).
    apply Permutation_insert_swap.
    + by ins_eq.
    + by ins_ne.
Qed.

Lemma down_inv_leaf (heap : list A) pos x :
  pos < length heap ≤ 2 * pos + 1 →
  down_inv key heap pos → up_inv key (<[pos:=x]> heap) pos.
Proof.
  intros Hleaf [H1 H2]. split.
  - intros i y q Hi Hne Hy Hq. ins_ne in Hy.
    pose proof (lookup_lt_Some _ _ _ Hy) as Hil.
    destruct (decide (parent i = pos)) as [Hc|Hnc].
    + destruct (parent_children i pos Hi Hc); lia.
    + ins_ne in Hq. by apply (H1 i y q).
  - intros c y g _ Hc Hcp Hy _.
    pose proof (lookup_lt_Some _ _ _ Hy) as Hcl. rewrite length_insert in Hcl.
    destruct (parent_children c pos Hc Hcp); lia.
Qed.

Lemma siftup_ok (heap : list A) :
  heap ≠ [] → down_inv key heap 0 →
  ∃ heap', _siftup lt heap 0 = Ok heap'
           ∧ heap_ok key heap' ∧ heap' ≡ₚ heap.
Proof.
  intros Hne Hinv.
  assert (0 < length heap) as Hlen by (destruct heap; [done | cbn; lia]).
  destruct (lookup_lt_is_Some_2 heap 0) as [newitem Hn]; [done|].
  unfold _siftup. rewrite (getitem_Ok _ _ _ Hn). cbn [mbind result_bind].
  destruct (siftup_loop_ok (length heap) heap 0)
    as (heap1 & pos1 & Hrun & Hl & Hp & Hinv1 & Hperm); [lia|done|done|].
  change (2 * 0 + 1) with 1 in *. rewrite Hrun. cbn [mbind result_bind].
  rewrite setitem_Ok by lia. cbn [mbind result_bind].
  destruct (siftdown_ok (<[pos1:=newitem]> heap1) pos1)
    as (heap' & Hrun' & Hok & Hperm').
  - rewrite length_insert. lia.
  - apply down_inv_leaf; [lia|done].
  - exists heap'. split_and!; [done..|].
    by rewrite Hperm', Hperm, list_insert_id.
Qed.

Lemma list_pop_snoc (l : list A) x : list_pop (l ++ [x]) = Ok (x, l).
Proof. unfold list_pop. by rewrite last_snoc, removelast_last. Qed.

Lemma heap_ok_prefix (l1 l2 : list A) : heap_ok key (l1 ++ l2) → heap_ok key l1.
Proof.
  intros Hh i x p Hi Hx Hp. apply (Hh i x p Hi).
  - by apply lookup_app_l_Some.
  - by apply lookup_app_l_Some.
Qed.

Lemma heappop_ok (heap : list A) :
  heap_ok key heap → heap ≠ [] →
  ∃ x heap', heappop lt heap = Ok (x, heap')
             ∧ heap !! 0 = Some x
             ∧ heap_ok key heap' ∧ heap ≡ₚ x :: heap'.
Proof.
  intros Hheap Hne.
  destruct (exists_last Hne) as (l & lastelt & ->).
  unfold heappop. rewrite list_pop_snoc. cbn [mbind result_bind].
  destruct l as [|y l].
  - exists lastelt, []. split_and!; [done|done| |done].
    intros i x p Hi Hx. by destruct i.
  - cbn [getitem lookup list_lookup mbind result_bind].
    rewrite setitem_Ok by (cbn; lia). cbn [mbind result_bind insert list_insert].
    destruct (siftup_ok (lastelt :: l)) as (heap' & Hrun & Hok & Hperm); [done| |].
    + apply heap_ok_prefix in Hheap. split.
      * intros i x p Hi Hnp Hx Hp.
        pose proof (parent_lt i Hi).
        destruct i as [|i]; [lia|]. destruct (parent (S i)) as [|k] eqn:Hk; [done|].
        apply (Hheap (S i) x p); [lia|done|by rewrite Hk].
      * intros; lia.
    + rewrite Hrun. cbn [mbind result_bind].
      exists y, heap'. split_and!; [done|done|done|].
      rewrite Hperm. cbn. constructor.
      by rewrite Permutation_app_comm.
Qed.

(** The root of a heap is a least element. *)
Lemma heap_root_min (heap : list A) x :
  heap_ok key heap → heap !! 0 = Some x →
  Forall (λ y, key x ≤ key y)%Z heap.
Proof.
  intros Hheap Hx. apply Forall_lookup. intros i.
  induction i as [i IH] using lt_wf_ind. intros y Hy.
  destruct (decide (i = 0)) as [->|Hi]; [by simplify_eq|].
  pose proof (parent_lt i ltac:(lia)) as Hp.
  destruct (lookup_lt_is_Some_2 heap (parent i)) as [p Hpv].
  { pose proof (lookup_lt_Some _ _ _ Hy). lia. }
  pose proof (IH _ Hp _ Hpv).
  pose proof (Hheap i y p ltac:(lia) Hy Hpv). lia.
Qed.
End heapq_correct.

(** ** The object store *)

Lemma lt_ref_key st a b : lt_ref st a b = (key_of st a <? key_of st b)%Z.
Proof. reflexivity. Qed.

Lemma deref_set_allocated st r b r' :
  name (deref (set_allocated st r b) r') = name (deref st r')
  ∧ priority (deref (set_allocated st r b) r') = priority (deref st r')
  ∧ allocated (deref (set_allocated st r b) r')
    = if decide (r' = r ∧ r < length st) then b else allocated (deref st r').
Proof.
  unfold set_allocated, deref. rewrite list_lookup_total_insert.
  case_decide as H.
  - destruct H as [-> ?]. rewrite decide_True by done. done.
  - rewrite decide_False; [done|]. intros [-> ?]. by apply H.
Qed.

Lemma name_set_allocated st r b r' :
  name (deref (set_allocated st r b) r') = name (deref st r').
Proof. apply deref_set_allocated. Qed.

Lemma key_of_set_allocated st r b r' :
  key_of (set_allocated st r b) r' = key_of st r'.
Proof. apply deref_set_allocated. Qed.

Lemma length_set_allocated st r b : length (set_allocated st r b) = length st.
Proof. apply length_insert. Qed.

Lemma deref_app st extra r : r < length st → deref (st ++ extra) r = deref st r.
Proof. intros. by apply lookup_total_app_l. Qed.

Lemma heap_ok_ext {A} (key1 key2 : A → Z) (l : list A) :
  Forall (λ x, key1 x = key2 x) l → heap_ok key1 l → heap_ok key2 l.
Proof.
  intros Hall Hh i x p Hi Hx Hp. rewrite Forall_lookup in Hall.
  rewrite <- (Hall _ _ Hx), <- (Hall _ _ Hp). by eapply Hh.
Qed.

(** ** Sorted arrays are heaps *)

Lemma StronglySorted_lookup_lt {A} (R : relation A) (l : list A) i j x y :
  StronglySorted R l → i < j → l !! i = Some x → l !! j = Some y → R x y.
Proof.
  intros Hs. revert i j. induction Hs as [|a l Hs IH Hall]; intros i j Hij Hx Hy.
  - done.
  - destruct j as [|j]; [lia|]. destruct i as [|i].
    + cbn in Hx, Hy. simplify_eq. rewrite Forall_lookup in Hall. by eapply Hall.
    + cbn in Hx, Hy. apply (IH i j); [lia|done|done].
Qed.

Lemma sorted_heap_ok {A} (key : A → Z) (l : list A) :
  StronglySorted (λ a b, key a ≤ key b)%Z l → heap_ok key l.
Proof.
  intros Hs i x p Hi Hx Hp.
  apply (StronglySorted_lookup_lt _ l (parent i) i p x Hs); [|done|done].
  by apply parent_lt.
Qed.

Lemma StronglySorted_filter {A} (R : relation A) (P : A → Prop)
    `{∀ x, Decision (P x)} (l : list A) :
  StronglySorted R l → StronglySorted R (filter P l).
Proof.
  induction 1 as [|a l Hs IH Hall]; [constructor|].
  rewrite filter_cons. case_decide; [|done].
  constructor; [done|].
  rewrite Forall_forall in *. intros y Hy. apply Hall.
  apply list_elem_of_filter in Hy. tauto.
Qed.

(** ** deallocate_resource: drain in priority order, put the survivors back *)

Section drain.
Context (st : list CloudResource) (resource_name : string).

Lemma last_match_cons r popped d :
  last_match st resource_name (r :: popped) d
  = last_match st resource_name popped
      (if String.eqb (name (deref st r)) resource_name then Some r else d).
Proof. reflexivity. Qed.

Lemma deallocate_drain_empty fuel d copy :
  deallocate_drain fuel st resource_name [] d copy = Ok ([], d, copy).
Proof. by destruct fuel. Qed.

Lemma deallocate_drain_more fuel queue d copy r queue' :
  queue ≠ [] →
  heappop (lt_ref st) queue = Ok (r, queue') →
  deallocate_drain (S fuel) st resource_name queue d copy
  = if String.eqb (name (deref st r)) resource_name
    then deallocate_drain fuel st resource_name queue' (Some r) copy
    else deallocate_drain fuel st resource_name queue' d (append copy r).
Proof.
  intros Hne Hpop. cbn [deallocate_drain].
  destruct queue; [done|]. cbn [length Nat.eqb negb].
  by rewrite Hpop.
Qed.

Lemma deallocate_drain_ok fuel : ∀ queue d copy,
  heap_ok (key_of st) queue → length queue ≤ fuel →
  ∃ popped,
    popped ≡ₚ queue
    ∧ StronglySorted (λ a b, key_of st a ≤ key_of st b)%Z popped
    ∧ deallocate_drain fuel st resource_name queue d copy
      = Ok ([], last_match st resource_name popped d,
            copy ++ filter (λ r, name (deref st r) ≠ resource_name) popped).
Proof.
  induction fuel as [|fuel IH]; intros queue d copy Hheap Hlen.
  - destruct queue; [|cbn in Hlen; lia].
    exists []. split_and!; [done|constructor|]. by rewrite app_nil_r.
  - destruct (decide (queue = [])) as [->|Hne].
    { exists []. split_and!; [done|constructor|].
      rewrite deallocate_drain_empty. by rewrite app_nil_r. }
    destruct (heappop_ok (lt_ref st) (key_of st) (lt_ref_key st) queue Hheap Hne)
      as (r & queue' & Hpop & Hroot & Hheap' & Hperm).
    pose proof (heap_root_min (key_of st) queue r Hheap Hroot) as Hmin.
    assert (length queue' ≤ fuel) as Hlen'.
    { apply Permutation_length in Hperm. cbn in Hperm. lia. }
    rewrite (deallocate_drain_more _ _ _ _ r queue') by done.
    destruct (String.eqb_spec (name (deref st r)) resource_name) as [Heq|Hneq].
    + destruct (IH queue' (Some r) copy Hheap' Hlen') as (popped & Hp & Hs & Hrun).
      exists (r :: popped). split_and!.
      * by rewrite Hperm, Hp.
      * constructor; [done|]. rewrite Hp.
        rewrite Hperm in Hmin. by inversion Hmin.
      * rewrite Hrun, last_match_cons.
        rewrite (proj2 (String.eqb_eq _ _) Heq).
        by rewrite filter_cons_False by (by intros ?).
    + destruct (IH queue' d (append copy r) Hheap' Hlen') as (popped & Hp & Hs & Hrun).
      exists (r :: popped). split_and!.
      * by rewrite Hperm, Hp.
      * constructor; [done|]. rewrite Hp.
        rewrite Hperm in Hmin. by inversion Hmin.
      * rewrite Hrun, last_match_cons.
        rewrite (proj2 (String.eqb_neq _ _) Hneq).
        rewrite filter_cons_True by done.
        unfold append. by rewrite <- app_assoc.
Qed.

(** Putting back a sequence that is already in order rebuilds it as is. *)
Lemma put_sorted copy : ∀ queue,
  StronglySorted (λ a b, key_of st a ≤ key_of st b)%Z (queue ++ copy) →
  for_each copy (heappush (lt_ref st)) queue = Ok (queue ++ copy).
Proof.
  induction copy as [|r copy IH]; intros queue Hs.
  - cbn. by rewrite app_nil_r.
  - cbn [for_each].
    rewrite (heappush_largest (lt_ref st) (key_of st) (lt_ref_key st)).
    + cbn [mbind result_bind]. rewrite IH; rewrite <- app_assoc; done.
    + apply StronglySorted_app in Hs as (Hcross & _ & _).
      apply Forall_forall. intros y Hy. apply Hcross; [done|left].
Qed.

Lemma last_match_name popped : ∀ d r,
  last_match st resource_name popped d = Some r →
  (d = Some r ∧ Forall (λ r, name (deref st r) ≠ resource_name) popped)
  ∨ (r ∈ popped ∧ name (deref st r) = resource_name).
Proof.
  induction popped as [|x popped IH]; intros d r Hd.
  - left. split; [done|constructor].
  - rewrite last_match_cons in Hd.
    destruct (String.eqb_spec (name (deref st x)) resource_name) as [Heq|Hneq].
    + destruct (IH _ _ Hd) as [[Hx _]|[Hin Hn]].
      * injection Hx as ->. right. split; [left|done].
      * right. split; [by right|done].
    + destruct (IH _ _ Hd) as [[Hx Hall]|[Hin Hn]].
      * left. split; [done|by constructor].
      * right. split; [by right|done].
Qed.

Lemma last_match_none popped :
  Forall (λ r, name (deref st r) ≠ resource_name) popped → last_match st resource_name popped None = None.
Proof.
  induction 1 as [|x popped Hx _ IH]; [done|].
  rewrite last_match_cons.
  by rewrite (proj2 (String.eqb_neq _ _) Hx).
Qed.
End drain.

(** What [deallocate_resource] does to a queue that is a heap: with
    [popped] the records in extraction order, the queue becomes [popped]
    without the records carrying the name, and the last such record is
    the one returned and unflagged. *)
Lemma deallocate_resource_ok n w :
  heap_ok (key_of (store w)) (resources w) →
  ∃ popped,
    popped ≡ₚ resources w
    ∧ StronglySorted (λ a b, key_of (store w) a ≤ key_of (store w) b)%Z popped
    ∧ deallocate_resource n w
      = Ok (last_match (store w) n popped None,
            {| store := match last_match (store w) n popped None with
                        | Some r => set_allocated (store w) r false
                        | None => store w
                        end;
               resources := filter (λ r, name (deref (store w) r) ≠ n) popped;
               merkle_tree := merkle_tree w;
               stdout := stdout w |}).
Proof.
  intros Hheap.
  destruct (deallocate_drain_ok (store w) n (length (resources w)) (resources w) None [])
    as (popped & Hperm & Hs & Hrun); [done|done|].
  exists popped. split_and!; [done..|].
  unfold deallocate_resource. rewrite Hrun. cbn [mbind result_bind app].
  rewrite put_sorted by (by apply StronglySorted_filter).
  done.
Qed.

(** ** Every reachable state is well formed *)

Lemma world_ok_same w w' :
  store w' = store w → resources w' = resources w → world_ok w → world_ok w'.
Proof.
  destruct w, w'. cbn. intros -> -> [Hr Hh Hn Hf].
  by split.
Qed.

Lemma world_ok_init : world_ok init.
Proof.
  split; cbn; try constructor.
  intros i x p _ Hx. by destruct i.
Qed.

Lemma world_ok_new n p a w : world_ok w → world_ok (CloudResource_new n p a w).2.
Proof.
  intros [Hr Hh Hn Hf]. split; cbn.
  - eapply Forall_impl; [exact Hr|]. cbn. intros r Hlt. rewrite length_app. lia.
  - eapply heap_ok_ext; [|done].
    eapply Forall_impl; [exact Hr|]. cbn. intros r Hlt.
    unfold key_of. by rewrite deref_app.
  - done.
  - rewrite Forall_forall in *. intros r Hin.
    unfold is_allocated in *. cbn. rewrite deref_app by auto. auto.
Qed.

Lemma allocate_resource_ok r w :
  world_ok w → r < length (store w) →
  ∃ w', allocate_resource r w = Ok (tt, w')
        ∧ world_ok w'
        ∧ if allocated (deref (store w) r) then w' = w
          else resources w' ≡ₚ r :: resources w
               ∧ store w' = set_allocated (store w) r true
               ∧ merkle_tree w' = merkle_tree w
               ∧ stdout w' = stdout w.
Proof.
  intros [Hr Hh Hn Hf] Hlt. unfold allocate_resource.
  destruct (allocated (deref (store w) r)) eqn:Hflag; cbn [negb].
  - exists w. by split_and!.
  - destruct (heappush_ok (lt_ref (store w)) (key_of (store w)) (lt_ref_key _)
                (resources w) r Hh) as (q & Hrun & Hq & Hperm).
    rewrite Hrun. cbn [mbind result_bind].
    eexists. split; [done|]. split; [|by cbn].
    split; cbn.
    + rewrite Hperm, length_set_allocated. by constructor.
    + eapply heap_ok_ext; [|done]. apply Forall_forall. intros x _.
      by rewrite key_of_set_allocated.
    + rewrite Hperm. constructor; [|done].
      intros Hin. rewrite Forall_forall in Hf. specialize (Hf _ Hin).
      unfold is_allocated in Hf. congruence.
    + rewrite Forall_forall in *. intros x Hx. rewrite Hperm in Hx.
      unfold is_allocated. cbn.
      destruct (deref_set_allocated (store w) r true x) as (_ & _ & ->).
      case_decide as Hd; [done|].
      apply elem_of_cons in Hx as [->|Hx]; [by destruct Hd|by apply Hf].
Qed.

Lemma StronglySorted_map {A B} (R1 : relation A) (R2 : relation B) (f : A → B) l :
  (∀ x y, R1 x y → R2 (f x) (f y)) →
  StronglySorted R1 l → StronglySorted R2 (map f l).
Proof.
  intros Hf. induction 1 as [|a l Hs IH Hall]; cbn; constructor; [done|].
  apply Forall_forall. intros y Hy.
  apply list_elem_of_In, in_map_iff in Hy as (x & <- & Hx).
  rewrite Forall_forall in Hall. apply Hf, Hall. by apply list_elem_of_In.
Qed.

Lemma deallocate_resource_world_ok n w :
  world_ok w →
  ∃ d w', deallocate_resource n w = Ok (d, w')
          ∧ world_ok w'
          ∧ StronglySorted Z.le (queue_priorities w')
          ∧ Forall (λ r, name (deref (store w') r) ≠ n) (resources w')
          ∧ merkle_tree w' = merkle_tree w ∧ stdout w' = stdout w.
Proof.
  intros [Hr Hh Hn Hf].
  destruct (deallocate_resource_ok n w Hh) as (popped & Hperm & Hs & Hrun).
  set (d := last_match (store w) n popped None) in *.
  set (st' := match d with
              | Some r => set_allocated (store w) r false
              | None => store w
              end) in *.
  assert (∀ r, name (deref st' r) = name (deref (store w) r)) as Hname.
  { intros r. subst st'. destruct d; [apply name_set_allocated|done]. }
  assert (∀ r, key_of st' r = key_of (store w) r) as Hkey.
  { intros r. subst st'. destruct d; [apply key_of_set_allocated|done]. }
  assert (length st' = length (store w)) as Hlen.
  { subst st'. destruct d; [apply length_set_allocated|done]. }
  eexists _, _. split; [exact Hrun|]. cbn.
  assert (StronglySorted (λ a b, key_of (store w) a ≤ key_of (store w) b)%Z
            (filter (λ r, name (deref (store w) r) ≠ n) popped)) as Hs'
    by (by apply StronglySorted_filter).
  split_and!; [split; cbn|..].
  - rewrite Hlen. rewrite <- Hperm in Hr.
    rewrite Forall_forall in *. intros r [_ Hin]%list_elem_of_filter. auto.
  - eapply heap_ok_ext; [|by apply sorted_heap_ok].
    apply Forall_forall. intros r _. by rewrite Hkey.
  - apply NoDup_filter. by rewrite Hperm.
  - rewrite <- Hperm in Hf. rewrite Forall_forall in *.
    intros r [Hkeep Hin]%list_elem_of_filter.
    unfold is_allocated in *. cbn. fold st'. subst st'.
    destruct d as [r0|] eqn:Hd; [|by apply Hf].
    destruct (deref_set_allocated (store w) r0 false r) as (_ & _ & ->).
    rewrite decide_False; [by apply Hf|].
    intros [-> _].
    destruct (last_match_name _ _ _ _ _ Hd) as [[? _]|[_ Hn0]]; [done|].
    by apply Hkeep.
  - unfold queue_priorities. cbn.
    eapply StronglySorted_map; [|exact Hs'].
    cbn. intros x y Hxy. fold (key_of st' x) (key_of st' y).
    by rewrite !Hkey.
  - apply Forall_forall. intros r [Hkeep _]%list_elem_of_filter.
    by rewrite Hname.
  - done.
  - done.
Qed.

Lemma step_ok w w' : step w w' → world_ok w → world_ok w'.
Proof.
  intros Hstep Hok. destruct Hstep as
    [n p a w | r w w' Hlt Hrun | n w d w' Hrun | w w' Hrun | w b w' Hrun | s w].
  - by apply world_ok_new.
  - destruct (allocate_resource_ok r w Hok Hlt) as (w'' & Hrun' & Hok' & _).
    congruence.
  - destruct (deallocate_resource_world_ok n w Hok) as (d' & w'' & Hrun' & Hok' & _).
    congruence.
  - unfold build_merkle_tree in Hrun.
    destruct (MerkleTree_init (resource_names w)); [|done..].
    cbn in Hrun. injection Hrun as <-. by apply (world_ok_same w).
  - unfold verify_merkle_tree in Hrun. destruct (merkle_tree w).
    + destruct (build_tree (resource_names w)); [|done..].
      cbn in Hrun. by injection Hrun as _ <-.
    + injection Hrun as _ <-. by apply (world_ok_same w).
  - by apply (world_ok_same w).
Qed.

Lemma reachable_ok w : reachable w → world_ok w.
Proof.
  unfold reachable. revert w. apply rtc_ind_r.
  - apply world_ok_init.
  - intros w1 w2 _ Hstep IH. by eapply step_ok.
Qed.

(** The branches of [main] move between reachable states. *)
Lemma main_allocate_reachable n p w w' :
  reachable w → main_allocate n p w = Ok (tt, w') → reachable w'.
Proof.
  unfold main_allocate, reachable. intros Hr Hrun.
  destruct (CloudResource_new n p false w) as [r w1] eqn:Hnew.
  assert (step w w1) as Hs1.
  { replace w1 with (CloudResource_new n p false w).2 by (by rewrite Hnew).
    constructor. }
  assert (r < length (store w1)) as Hlt.
  { unfold CloudResource_new in Hnew. injection Hnew as <- <-. cbn.
    rewrite length_app. cbn. lia. }
  destruct (allocate_resource r w1) as [[[] w2]| |] eqn:Halloc; [|done..].
  cbn in Hrun. injection Hrun as <-.
  eapply rtc_r; [|apply step_print].
  eapply rtc_r; [|by eapply step_allocate].
  by eapply rtc_r.
Qed.

Lemma main_allocate_all_reachable requests : ∀ w w',
  reachable w → main_allocate_all requests w = Ok w' → reachable w'.
Proof.
  induction requests as [|[n p] requests IH]; intros w w' Hr Hrun.
  - cbn in Hrun. by injection Hrun as <-.
  - cbn [main_allocate_all] in Hrun.
    destruct (main_allocate n p w) as [[[] w1]| |] eqn:Hone; [|done..].
    cbn in Hrun. eapply IH; [|done]. by eapply main_allocate_reachable.
Qed.

Lemma registry_of_reachable requests w :
  main_allocate_all requests init = Ok w → reachable w.
Proof. apply main_allocate_all_reachable. apply rtc_refl. Qed.

Lemma filter_all {A} (P : A → Prop) `{∀ x, Decision (P x)} (l : list A) :
  Forall P l → filter P l = l.
Proof.
  induction 1 as [|x l Hx _ IH]; [done|].
  by rewrite filter_cons_True, IH.
Qed.

(* ===================================================================== *)
(** * The claims *)
(* ===================================================================== *)

(** C1, as stated, fails: the registry holding one record named by a lone
    surrogate, as typed at the menu, is not empty, and
    [build_merkle_tree] raises [UnicodeEncodeError] on it. *)
Lemma build_on_surrogate_name_raises :
  main_allocate_all [(lone_surrogate, 1%Z)] init = Ok registry_surrogate
  ∧ resources registry_surrogate ≠ []
  ∧ build_merkle_tree registry_surrogate = Raise UnicodeEncodeError
  ∧ main_build registry_surrogate = Raise UnicodeEncodeError.
Proof. split_and!; [vm_compute; reflexivity|vm_compute; discriminate|..]; vm_compute; reflexivity. Qed.

(** C1, amended: in any state whose registry is non-empty and whose
    queued names can all be encoded in UTF-8 (so after any sequence of
    allocate and deallocate operations that leaves such a registry),
    [build_merkle_tree] succeeds and an immediately following
    [verify_merkle_tree] returns [True], leaving the state as it is. *)
Theorem build_then_verify (w : World) :
  resources w ≠ [] → Forall encodable (resource_names w) →
  ∃ w', build_merkle_tree w = Ok (tt, w')
        ∧ verify_merkle_tree w' = Ok (true, w').
Proof.
  intros Hne Henc.
  destruct (build_tree_spec (resource_names w)) as (root & Hroot & _);
    [by apply resource_names_nonempty|done|].
  unfold build_merkle_tree, MerkleTree_init. rewrite Hroot.
  cbn [mbind result_bind]. eexists. split; [done|].
  unfold verify_merkle_tree. cbn [merkle_tree tree].
  unfold resource_names in *. cbn [store resources].
  rewrite Hroot. cbn [mbind result_bind].
  by rewrite String.eqb_refl.
Qed.

Lemma build_then_verify_witness :
  ∃ w', build_merkle_tree registry_A5_B1_C3 = Ok (tt, w')
        ∧ verify_merkle_tree w' = Ok (true, w').
Proof.
  apply (build_then_verify registry_A5_B1_C3).
  - vm_compute. discriminate.
  - apply (bool_decide_unpack _). vm_compute. exact I.
Defined.

(** C2, as stated, fails: on the one-item sequence holding a lone
    surrogate [build_tree] raises [UnicodeEncodeError] and returns no
    root. *)
Lemma build_tree_surrogate_item_raises :
  [lone_surrogate] ≠ []
  ∧ build_tree [lone_surrogate] = Raise UnicodeEncodeError.
Proof. split; [discriminate|vm_compute; reflexivity]. Qed.

(** C2, amended: for a non-empty sequence of strings that can be encoded
    in UTF-8, [build_tree] returns the root that the specification
    describes: hash the items into the leaf level, collapse adjacent pairs
    left to right into the hash of their concatenation, carry an odd last
    node unchanged, and stop when one node is left.  That root is the only
    one the description allows. *)
Theorem build_tree_follows_spec (data : list string) :
  data ≠ [] → Forall encodable data →
  ∃ root, build_tree data = Ok root
          ∧ spec_build data root
          ∧ ∀ root', spec_build data root' → root' = root.
Proof.
  intros Hne Henc.
  destruct (build_tree_spec data Hne Henc) as (root & Hrun & Hspec).
  exists root. split_and!; [done..|].
  intros root' Hspec'. by eapply spec_root_of_level_functional.
Qed.

Lemma build_tree_follows_spec_witness :
  ∃ root, build_tree ["A"; "B"; "C"] = Ok root
          ∧ spec_build ["A"; "B"; "C"] root
          ∧ ∀ root', spec_build ["A"; "B"; "C"] root' → root' = root.
Proof.
  apply (build_tree_follows_spec ["A"; "B"; "C"]).
  - discriminate.
  - apply (bool_decide_unpack _). vm_compute. exact I.
Defined.

(** C8, as stated, fails: on the sequence "A", lone surrogate, two calls
    of [build_tree] produce no root at all: both raise
    [UnicodeEncodeError]. *)
Lemma build_tree_twice_without_root :
  ["A"; lone_surrogate] ≠ []
  ∧ build_tree ["A"; lone_surrogate] = Raise UnicodeEncodeError
  ∧ ¬ ∃ root, build_tree ["A"; lone_surrogate] = Ok root
              ∧ build_tree ["A"; lone_surrogate] = Ok root.
Proof.
  assert (build_tree ["A"; lone_surrogate] = Raise UnicodeEncodeError) as H
    by (vm_compute; reflexivity).
  split_and!; [discriminate|done|].
  intros (root & Hroot & _). congruence.
Qed.

(** C8, amended: [build_tree] is deterministic.  On a non-empty sequence
    of strings that can be encoded in UTF-8, two calls on the identical
    sequence return the identical root; on a sequence holding a string that
    cannot be encoded both calls raise [UnicodeEncodeError]. *)
Theorem build_tree_deterministic (data1 data2 : list string) :
  data1 = data2 → data1 ≠ [] →
  (Forall encodable data1 →
     ∃ root, build_tree data1 = Ok root ∧ build_tree data2 = Ok root)
  ∧ (¬ Forall encodable data1 →
       build_tree data1 = Raise UnicodeEncodeError
       ∧ build_tree data2 = Raise UnicodeEncodeError).
Proof.
  intros <- Hne. split.
  - intros Henc.
    destruct (build_tree_spec data1 Hne Henc) as (root & Hrun & _).
    by exists root.
  - intros Hnot. by rewrite build_tree_unencodable.
Qed.

Lemma build_tree_deterministic_witness :
  (∃ root, build_tree ["A"; "B"; "C"] = Ok root
           ∧ build_tree ["A"; "B"; "C"] = Ok root)
  ∧ build_tree ["A"; lone_surrogate] = Raise UnicodeEncodeError
    ∧ build_tree ["A"; lone_surrogate] = Raise UnicodeEncodeError.
Proof.
  split.
  - destruct (build_tree_deterministic ["A"; "B"; "C"] ["A"; "B"; "C"])
      as [Hroot _]; [reflexivity|discriminate|].
    apply Hroot. apply (bool_decide_unpack _). vm_compute. exact I.
  - destruct (build_tree_deterministic ["A"; lone_surrogate] ["A"; lone_surrogate])
      as [_ Hraise]; [reflexivity|discriminate|].
    apply Hraise. apply (bool_decide_unpack _). vm_compute. exact I.
Defined.

(** C6, as stated, fails: with a snapshot held, [verify_merkle_tree]
    does not always return a comparison.  After a record named by a lone
    surrogate has been allocated it raises [UnicodeEncodeError]; after the
    registry has been emptied it raises [IndexError].  Both states are
    reachable from the menu. *)
Lemma verify_with_snapshot_can_raise :
  (reachable registry_surrogate_after_snapshot
   ∧ is_Some (merkle_tree registry_surrogate_after_snapshot)
   ∧ verify_merkle_tree registry_surrogate_after_snapshot
     = Raise UnicodeEncodeError)
  ∧ (reachable registry_emptied_after_snapshot
     ∧ is_Some (merkle_tree registry_emptied_after_snapshot)
     ∧ verify_merkle_tree registry_emptied_after_snapshot = Raise IndexError).
Proof.
  assert (reachable (with_snapshot (registry_of [("A", 1%Z)]))) as Hsnap.
  { unfold reachable. apply (rtc_r _ (registry_of [("A", 1%Z)])).
    - apply (registry_of_reachable [("A", 1%Z)]). vm_compute. reflexivity.
    - apply step_build. vm_compute. reflexivity. }
  split; split_and!.
  - apply (main_allocate_reachable lone_surrogate 2
             (with_snapshot (registry_of [("A", 1%Z)]))); [done|].
    vm_compute. reflexivity.
  - vm_compute. by eexists.
  - vm_compute. reflexivity.
  - unfold reachable.
    apply (rtc_r _ (with_snapshot (registry_of [("A", 1%Z)]))); [done|].
    apply (step_deallocate "A" _ (Some 0)). vm_compute. reflexivity.
  - vm_compute. by eexists.
  - vm_compute. reflexivity.
Qed.

(** C6, amended: without a snapshot, [verify_merkle_tree] returns [False]
    and reports the reason by printing "Merkle tree not built.", without
    raising.  With a snapshot it prints nothing; on a non-empty registry
    whose queued names can all be encoded in UTF-8 it returns the result of
    comparing the stored root with the root rebuilt from the current
    enumeration, and when a queued name cannot be encoded it raises
    [UnicodeEncodeError]. *)
Theorem verify_merkle_tree_cases (w : World) :
  (merkle_tree w = None →
     verify_merkle_tree w = Ok (false, print "Merkle tree not built." w))
  ∧ (∀ t, merkle_tree w = Some t → resources w ≠ [] →
       Forall encodable (snapshotOrder w) →
       ∃ root, build_tree (snapshotOrder w) = Ok root
               ∧ verify_merkle_tree w = Ok (String.eqb (tree t) root, w))
  ∧ (∀ t, merkle_tree w = Some t →
       ¬ Forall encodable (snapshotOrder w) →
       verify_merkle_tree w = Raise UnicodeEncodeError).
Proof.
  unfold verify_merkle_tree, snapshotOrder. split_and!.
  - by intros ->.
  - intros t -> Hne Henc.
    destruct (build_tree_spec (resource_names w)) as (root & Hroot & _);
      [by apply resource_names_nonempty|done|].
    exists root. by rewrite Hroot.
  - intros t -> Hnot. by rewrite build_tree_unencodable.
Qed.

Lemma verify_merkle_tree_cases_witness :
  verify_merkle_tree init = Ok (false, print "Merkle tree not built." init)
  ∧ (∃ root,
       build_tree (snapshotOrder (with_snapshot registry_A5_B1_C3)) = Ok root
       ∧ verify_merkle_tree (with_snapshot registry_A5_B1_C3)
         = Ok (String.eqb "344ed9063988f44f3b95b8ca753ca0c1e91d52ba9c8cbe46667e24254f00eeda" root,
               with_snapshot registry_A5_B1_C3))
  ∧ verify_merkle_tree registry_surrogate_after_snapshot
    = Raise UnicodeEncodeError.
Proof.
  split_and!.
  - destruct (verify_merkle_tree_cases init) as (Hnone & _ & _).
    apply Hnone. reflexivity.
  - destruct (verify_merkle_tree_cases (with_snapshot registry_A5_B1_C3))
      as (_ & Hsome & _).
    apply (Hsome {| data := ["B"; "A"; "C"];
                    tree := "344ed9063988f44f3b95b8ca753ca0c1e91d52ba9c8cbe46667e24254f00eeda" |}).
    + vm_compute. reflexivity.
    + vm_compute. discriminate.
    + apply (bool_decide_unpack _). vm_compute. exact I.
  - destruct (verify_merkle_tree_cases registry_surrogate_after_snapshot)
      as (_ & _ & Hraise).
    apply (Hraise {| data := ["A"];
                     tree := "559aead08264d5795d3909718cdd05abd49572e84fe55590eef31a88a08fdffd" |}).
    + vm_compute. reflexivity.
    + apply (bool_decide_unpack _). vm_compute. exact I.
Defined.

(** C10: in every reachable state, [deallocate_resource] returns (whether
    or not a record carries the name); the queue it leaves holds the
    remaining records, that is the queued records not carrying the name,
    each once and with its name and priority unchanged, and enumerates them
    in nondecreasing priority order. *)
Theorem deallocate_enumerates_by_priority (w : World) (n : string) :
  reachable w →
  ∃ d w', deallocate_resource n w = Ok (d, w')
          ∧ resources w'
            ≡ₚ filter (λ r, name (deref (store w) r) ≠ n) (resources w)
          ∧ (∀ r, name (deref (store w') r) = name (deref (store w) r)
                  ∧ priority (deref (store w') r) = priority (deref (store w) r))
          ∧ Sorted Z.le (queue_priorities w').
Proof.
  intros Hr. pose proof (reachable_ok w Hr) as Hok.
  destruct (deallocate_resource_world_ok n w Hok)
    as (d & w' & Hrun & _ & Hs & _).
  destruct (deallocate_resource_ok n w (ok_heap w Hok))
    as (popped & Hperm & _ & Hrun').
  exists d, w'. split; [done|].
  rewrite Hrun' in Hrun. injection Hrun as Hd Hw. subst w'. cbn.
  split_and!.
  - by rewrite Hperm.
  - intros r. destruct (last_match _ _ _ _) as [r0|]; [|done].
    destruct (deref_set_allocated (store w) r0 false r) as (Hn & Hp & _).
    by split.
  - by apply StronglySorted_Sorted.
Qed.

Lemma deallocate_enumerates_by_priority_witness :
  ∃ d w', deallocate_resource "B" registry_A5_B1_C3 = Ok (d, w')
          ∧ resources w'
            ≡ₚ filter (λ r, name (deref (store registry_A5_B1_C3) r) ≠ "B")
                      (resources registry_A5_B1_C3)
          ∧ (∀ r, name (deref (store w') r)
                  = name (deref (store registry_A5_B1_C3) r)
                  ∧ priority (deref (store w') r)
                    = priority (deref (store registry_A5_B1_C3) r))
          ∧ Sorted Z.le (queue_priorities w').
Proof.
  apply (deallocate_enumerates_by_priority registry_A5_B1_C3 "B").
  apply (registry_of_reachable [("A", 5); ("B", 1); ("C", 3)]%Z).
  vm_compute. reflexivity.
Defined.

(** C5, as stated, fails: on the registry built by allocating A (priority
    1), B (3), C (2), deallocating the unknown name "Z" returns [None] but
    changes the enumeration order from A, B, C to A, C, B, and a snapshot
    taken before the call no longer verifies after it. *)
Lemma deallocate_unknown_reorders :
  snapshotOrder (with_snapshot registry_A1_B3_C2) = ["A"; "B"; "C"]
  ∧ verify_merkle_tree (with_snapshot registry_A1_B3_C2)
    = Ok (true, with_snapshot registry_A1_B3_C2)
  ∧ ∃ w', deallocate_resource "Z" (with_snapshot registry_A1_B3_C2) = Ok (None, w')
          ∧ snapshotOrder w' = ["A"; "C"; "B"]
          ∧ verify_merkle_tree w' = Ok (false, w').
Proof.
  split_and!; [vm_compute; reflexivity..|].
  exists (after_deallocate "Z" (with_snapshot registry_A1_B3_C2)).
  split_and!; vm_compute; reflexivity.
Qed.

(** C5, amended: in every reachable state, deallocating a name that no
    record carries returns [None] and changes neither the objects (names,
    priorities, flags), nor the snapshot, nor the output; the queue holds
    the same records as before, now enumerated in nondecreasing priority
    order. *)
Theorem deallocate_unknown_name (w : World) (n : string) :
  reachable w →
  Forall (λ r, name (deref (store w) r) ≠ n) (resources w) →
  ∃ w', deallocate_resource n w = Ok (None, w')
        ∧ store w' = store w
        ∧ merkle_tree w' = merkle_tree w
        ∧ stdout w' = stdout w
        ∧ resources w' ≡ₚ resources w
        ∧ Sorted Z.le (queue_priorities w').
Proof.
  intros Hr Hnone.
  pose proof (reachable_ok w Hr) as Hok.
  destruct (deallocate_resource_ok n w (ok_heap w Hok)) as (popped & Hperm & Hs & Hrun).
  rewrite <- Hperm in Hnone.
  rewrite (last_match_none _ _ _ Hnone) in Hrun.
  rewrite (filter_all _ _ Hnone) in Hrun.
  eexists. split; [exact Hrun|]. cbn. split_and!; [done..|].
  apply StronglySorted_Sorted. unfold queue_priorities. cbn.
  eapply StronglySorted_map; [|exact Hs]. done.
Qed.

Lemma deallocate_unknown_name_witness :
  ∃ w', deallocate_resource "Z" registry_A1_B3_C2 = Ok (None, w')
        ∧ store w' = store registry_A1_B3_C2
        ∧ merkle_tree w' = merkle_tree registry_A1_B3_C2
        ∧ stdout w' = stdout registry_A1_B3_C2
        ∧ resources w' ≡ₚ resources registry_A1_B3_C2
        ∧ Sorted Z.le (queue_priorities w').
Proof.
  apply (deallocate_unknown_name registry_A1_B3_C2 "Z").
  - apply (registry_of_reachable [("A", 1); ("B", 3); ("C", 2)]%Z).
    vm_compute. reflexivity.
  - vm_compute. repeat constructor; discriminate.
Defined.

(** C7: fingerprinting the empty registry raises [IndexError] out of
    [build_tree], through [build_merkle_tree], and out of the branch of
    [main] that called it, where nothing handles it. *)
Theorem build_on_empty_registry_raises :
  build_tree [] = Raise IndexError
  ∧ build_merkle_tree init = Raise IndexError
  ∧ main_build init = Raise IndexError.
Proof. by split_and!. Qed.

(** C4: with two records named "A" (priorities 1 and 2) and one named
    "B", [deallocate_resource "A"] takes both "A" records out of the queue;
    only the one extracted last is returned and unflagged, the other stays
    flagged allocated although it is no longer queued. *)
Theorem deallocate_duplicate_name_drops_both :
  count_named "A" registry_A1_A2_B3 = 2
  ∧ ∃ w', deallocate_resource "A" registry_A1_A2_B3 = Ok (Some 1, w')
          ∧ resources w' = [2]
          ∧ count_named "A" w' = 0
          ∧ store w' = [ {| name := "A"; priority := 1; allocated := true |};
                         {| name := "A"; priority := 2; allocated := false |};
                         {| name := "B"; priority := 3; allocated := true |} ].
Proof.
  split; [by vm_compute|].
  eexists. split_and!; by vm_compute.
Qed.

(** C9: after allocating two records named "A" and deallocating "A", the
    first record is flagged allocated but is not in the registry. *)
Theorem dropped_record_stays_allocated :
  ∃ w', deallocate_resource "A" registry_A1_A2_B3 = Ok (Some 1, w')
        ∧ reachable w'
        ∧ is_allocated w' 0
        ∧ ¬ present w' 0.
Proof.
  eexists. split; [by vm_compute|]. split_and!.
  - eapply rtc_r; [|eapply (step_deallocate "A" registry_A1_A2_B3); by vm_compute].
    apply (registry_of_reachable [("A", 1); ("A", 2); ("B", 3)]%Z).
    by vm_compute.
  - by vm_compute.
  - unfold present. cbn. intros Hin. apply list_elem_of_singleton in Hin. lia.
Qed.

(** C3, as stated, fails: two calls of allocate("X", 1) on a fresh
    allocator both insert; the second changes the registry, which then
    holds two allocated records named "X". *)
Lemma allocate_same_name_twice_inserts_twice :
  ∃ w1 w2, main_allocate "X" 1 init = Ok (tt, w1)
           ∧ main_allocate "X" 1 w1 = Ok (tt, w2)
           ∧ resources w1 = [0]
           ∧ resources w2 = [0; 1]
           ∧ count_named "X" w2 = 2
           ∧ get_allocated_resources w2 = ["X"; "X"].
Proof. eexists _, _. split_and!; by vm_compute. Qed.

(** C3, amended: [allocate_resource] returns [None] in every case.  On a
    record whose flag is set it changes nothing; on a record whose flag is
    clear it adds the record to the queue and sets the flag, the other
    objects, the snapshot and the output staying as they were, and a second
    call on the same record changes nothing.  A request made through
    [main] constructs a new, unflagged record each time, so the same name
    and priority requested twice on a fresh allocator gives a registry with
    two allocated records of that name. *)
Theorem allocate_resource_guard (w : World) (r : ref) :
  reachable w → r < length (store w) →
  (∃ w', allocate_resource r w = Ok (tt, w')
         ∧ (if allocated (deref (store w) r) then w' = w
            else resources w' ≡ₚ r :: resources w
                 ∧ store w' = set_allocated (store w) r true
                 ∧ merkle_tree w' = merkle_tree w
                 ∧ stdout w' = stdout w)
         ∧ is_allocated w' r
         ∧ allocate_resource r w' = Ok (tt, w'))
  ∧ (∀ n p, ∃ w1 w2, main_allocate n p init = Ok (tt, w1)
                     ∧ main_allocate n p w1 = Ok (tt, w2)
                     ∧ count_named n w1 = 1
                     ∧ count_named n w2 = 2).
Proof.
  intros Hr Hlt. split.
  - destruct (allocate_resource_ok r w (reachable_ok w Hr) Hlt)
      as (w' & Hrun & _ & Hcase).
    exists w'. split; [done|]. split; [done|].
    assert (is_allocated w' r) as Hflag.
    { unfold is_allocated.
      destruct (allocated (deref (store w) r)) eqn:Hf; [by subst|].
      destruct Hcase as (_ & -> & _).
      destruct (deref_set_allocated (store w) r true r) as (_ & _ & ->).
      by rewrite decide_True. }
    split; [done|].
    unfold allocate_resource. unfold is_allocated in Hflag. by rewrite Hflag.
  - intros n p.
    set (x := {| name := n; priority := p; allocated := true |}).
    exists {| store := [x]; resources := [0]; merkle_tree := None;
              stdout := ["Resource allocated successfully."] |},
           {| store := [x; x]; resources := [0; 1]; merkle_tree := None;
              stdout := ["Resource allocated successfully.";
                         "Resource allocated successfully."] |}.
    split; [reflexivity|]. split.
    { unfold main_allocate, allocate_resource, heappush, _siftdown. cbn.
      rewrite lt_ref_key. unfold key_of, deref. cbn.
      rewrite Z.ltb_irrefl. reflexivity. }
    unfold count_named. cbn [resources store].
    split.
    + rewrite filter_cons_True by done. done.
    + rewrite !filter_cons_True by done. done.
Qed.

Lemma allocate_resource_guard_witness :
  (∃ w', allocate_resource 1 registry_A5_C3_without_B = Ok (tt, w')
         ∧ (if allocated (deref (store registry_A5_C3_without_B) 1)
            then w' = registry_A5_C3_without_B
            else resources w' ≡ₚ 1 :: resources registry_A5_C3_without_B
                 ∧ store w' = set_allocated (store registry_A5_C3_without_B) 1 true
                 ∧ merkle_tree w' = merkle_tree registry_A5_C3_without_B
                 ∧ stdout w' = stdout registry_A5_C3_without_B)
         ∧ is_allocated w' 1
         ∧ allocate_resource 1 w' = Ok (tt, w'))
  ∧ (∀ n p, ∃ w1 w2, main_allocate n p init = Ok (tt, w1)
                     ∧ main_allocate n p w1 = Ok (tt, w2)
                     ∧ count_named n w1 = 1
                     ∧ count_named n w2 = 2).
Proof.
  apply (allocate_resource_guard registry_A5_C3_without_B 1).
  - eapply rtc_r.
    + apply (registry_of_reachable [("A", 5); ("B", 1); ("C", 3)]%Z).
      vm_compute. reflexivity.
    + apply (step_deallocate "B" _ (Some 1)). vm_compute. reflexivity.
  - vm_compute. lia.
Defined.

Example registry_A5_C3_without_B_unflagged :
  allocated (deref (store registry_A5_C3_without_B) 1) = false
  ∧ resources registry_A5_C3_without_B = [2; 0].
Proof. by vm_compute. Qed.

(* ===================================================================== *)
(** * Further properties of the allocator and of the fingerprint *)
(* ===================================================================== *)

(** ** The queue in reachable states *)

(** X1: in every reachable state the first record of the queue, the one
    [get] would hand out next, has the least priority of all queued
    records. *)
Theorem queue_head_has_least_priority (w : World) (r0 : ref) :
  reachable w → resources w !! 0 = Some r0 →
  Forall (λ r, priority (deref (store w) r0) ≤ priority (deref (store w) r))%Z
         (resources w).
Proof.
  intros Hr H0.
  apply (heap_root_min (key_of (store w)) (resources w) r0); [|done].
  by apply ok_heap, reachable_ok.
Qed.

Lemma queue_head_has_least_priority_witness :
  Forall (λ r, priority (deref (store registry_A5_B1_C3) 1%nat)
               ≤ priority (deref (store registry_A5_B1_C3) r))%Z
         (resources registry_A5_B1_C3).
Proof.
  apply (queue_head_has_least_priority registry_A5_B1_C3 1).
  - apply (registry_of_reachable [("A", 5); ("B", 1); ("C", 3)]%Z).
    vm_compute. reflexivity.
  - vm_compute. reflexivity.
Defined.

(** X2: in every reachable state no object is queued twice, and every
    queued reference denotes an existing object whose [allocated] flag is
    set. *)
Theorem queued_records_are_allocated (w : World) :
  reachable w →
  NoDup (resources w)
  ∧ Forall (λ r, r < length (store w) ∧ allocated (deref (store w) r) = true)
           (resources w).
Proof.
  intros Hr. destruct (reachable_ok w Hr) as [Hrefs _ Hnd Hflags].
  split; [done|].
  rewrite Forall_forall in *. intros r Hin. split; [by apply Hrefs|].
  by apply Hflags.
Qed.

Lemma queued_records_are_allocated_witness :
  NoDup (resources registry_A5_C3_without_B)
  ∧ Forall (λ r, r < length (store registry_A5_C3_without_B)
                 ∧ allocated (deref (store registry_A5_C3_without_B) r) = true)
           (resources registry_A5_C3_without_B).
Proof.
  apply (queued_records_are_allocated registry_A5_C3_without_B).
  eapply rtc_r.
  - apply (registry_of_reachable [("A", 5); ("B", 1); ("C", 3)]%Z).
    vm_compute. reflexivity.
  - apply (step_deallocate "B" _ (Some 1)). vm_compute. reflexivity.
Defined.

(** X3: in every reachable state the [if resource.allocated] filter of
    [get_allocated_resources] keeps every queued record: the result is the
    list of all queued names, in queue order. *)
Theorem get_allocated_resources_lists_queue (w : World) :
  reachable w → get_allocated_resources w = resource_names w.
Proof.
  intros Hr. unfold get_allocated_resources, resource_names.
  rewrite filter_all; [done|].
  by apply (ok_flags w), reachable_ok.
Qed.

Lemma get_allocated_resources_lists_queue_witness :
  get_allocated_resources registry_A5_B1_C3 = resource_names registry_A5_B1_C3.
Proof.
  apply (get_allocated_resources_lists_queue registry_A5_B1_C3).
  apply (registry_of_reachable [("A", 5); ("B", 1); ("C", 3)]%Z).
  vm_compute. reflexivity.
Defined.

(** ** get_resource_by_name *)

Lemma find_first_match {A} (f : A → bool) (l : list A) :
  match find f l with
  | Some x => ∃ i, l !! i = Some x ∧ f x = true
                   ∧ ∀ j y, j < i → l !! j = Some y → f y = false
  | None => Forall (λ y, f y = false) l
  end.
Proof.
  induction l as [|a l IH]; cbn [find]; [constructor|].
  destruct (f a) eqn:Ha.
  - exists 0. split_and!; [done|done|]. intros j y Hj. lia.
  - destruct (find f l) as [x|].
    + destruct IH as (i & Hi & Hx & Hbefore).
      exists (S i). split_and!; [done|done|].
      intros [|j] y Hj Hy; [cbn in Hy; by simplify_eq|].
      apply (Hbefore j); [lia|done].
    + by constructor.
Qed.

(** X4: [get_resource_by_name] returns the first record in queue order
    that carries the name, and [None] exactly when no queued record
    carries it. *)
Theorem get_resource_by_name_first_match (w : World) (n : string) :
  match get_resource_by_name n w with
  | Some r =>
      ∃ i, resources w !! i = Some r
           ∧ name (deref (store w) r) = n
           ∧ ∀ j r', j < i → resources w !! j = Some r' →
                     name (deref (store w) r') ≠ n
  | None => Forall (λ r, name (deref (store w) r) ≠ n) (resources w)
  end.
Proof.
  unfold get_resource_by_name.
  pose proof (find_first_match
    (λ r, String.eqb (name (deref (store w) r)) n) (resources w)) as H.
  destruct (find _ (resources w)) as [r|].
  - destruct H as (i & Hi & Hr & Hbefore). exists i.
    split_and!; [done|by apply String.eqb_eq|].
    intros j r' Hj Hr'. apply String.eqb_neq. by apply (Hbefore j).
  - eapply Forall_impl; [exact H|]. intros r. cbn. apply String.eqb_neq.
Qed.

(** ** deallocate_resource, in general *)

Lemma last_match_split st n popped : ∀ d,
  match last_match st n popped d with
  | Some r =>
      (d = Some r ∧ Forall (λ x, name (deref st x) ≠ n) popped)
      ∨ ∃ l1 l2, popped = l1 ++ r :: l2
                 ∧ name (deref st r) = n
                 ∧ Forall (λ x, name (deref st x) ≠ n) l2
  | None => d = None ∧ Forall (λ x, name (deref st x) ≠ n) popped
  end.
Proof.
  induction popped as [|x popped IH]; intros d.
  - cbn. destruct d; [left|]; by split.
  - rewrite last_match_cons.
    specialize (IH (if String.eqb (name (deref st x)) n then Some x else d)).
    destruct (last_match st n popped _) as [r|].
    + destruct (String.eqb_spec (name (deref st x)) n) as [Heq|Hneq].
      * destruct IH as [[Hx Hall]|(l1 & l2 & -> & Hn & Hall)].
        -- injection Hx as ->. right. by exists [], popped.
        -- right. by exists (x :: l1), l2.
      * destruct IH as [[Hx Hall]|(l1 & l2 & -> & Hn & Hall)].
        -- left. split; [done|by constructor].
        -- right. by exists (x :: l1), l2.
    + destruct (String.eqb_spec (name (deref st x)) n) as [Heq|Hneq].
      * by destruct IH.
      * destruct IH as [-> Hall]. split; [done|by constructor].
Qed.

(** X5: in every reachable state [deallocate_resource] returns, and what
    it leaves in the queue is, up to order, the queue without every record
    carrying the name; no object is created, no name or priority changes,
    the snapshot and the output are left alone. *)
Theorem deallocate_resource_keeps_other_names (w : World) (n : string) :
  reachable w →
  ∃ d w', deallocate_resource n w = Ok (d, w')
          ∧ resources w' ≡ₚ filter (λ r, name (deref (store w) r) ≠ n) (resources w)
          ∧ length (store w') = length (store w)
          ∧ (∀ r, name (deref (store w') r) = name (deref (store w) r)
                  ∧ priority (deref (store w') r) = priority (deref (store w) r))
          ∧ merkle_tree w' = merkle_tree w
          ∧ stdout w' = stdout w.
Proof.
  intros Hr.
  destruct (deallocate_resource_ok n w (ok_heap w (reachable_ok w Hr)))
    as (popped & Hperm & _ & Hrun).
  eexists _, _. split; [exact Hrun|]. cbn.
  split_and!; [by rewrite Hperm| | |done|done].
  - destruct (last_match _ _ _ _); [apply length_set_allocated|done].
  - intros r. destruct (last_match _ _ _ _) as [d|]; [|done].
    destruct (deref_set_allocated (store w) d false r) as (Hn & Hp & _).
    by split.
Qed.

Lemma deallocate_resource_keeps_other_names_witness :
  ∃ d w', deallocate_resource "A" registry_A1_A2_B3 = Ok (d, w')
          ∧ resources w'
            ≡ₚ filter (λ r, name (deref (store registry_A1_A2_B3) r) ≠ "A")
                      (resources registry_A1_A2_B3)
          ∧ length (store w') = length (store registry_A1_A2_B3)
          ∧ (∀ r, name (deref (store w') r)
                  = name (deref (store registry_A1_A2_B3) r)
                  ∧ priority (deref (store w') r)
                    = priority (deref (store registry_A1_A2_B3) r))
          ∧ merkle_tree w' = merkle_tree registry_A1_A2_B3
          ∧ stdout w' = stdout registry_A1_A2_B3.
Proof.
  apply (deallocate_resource_keeps_other_names registry_A1_A2_B3 "A").
  apply (registry_of_reachable [("A", 1); ("A", 2); ("B", 3)]%Z).
  vm_compute. reflexivity.
Defined.

(** X6: what [deallocate_resource] returns in a reachable state.  With no
    queued record of that name it returns [None] and the objects are
    untouched.  Otherwise it returns a queued record of that name whose
    priority is the largest among the queued records of that name; that
    record is no longer queued, its flag is cleared, and no other object
    changes. *)
Theorem deallocate_resource_returns_last_match (w : World) (n : string)
    (d : option ref) (w' : World) :
  reachable w → deallocate_resource n w = Ok (d, w') →
  match d with
  | None =>
      Forall (λ r, name (deref (store w) r) ≠ n) (resources w)
      ∧ store w' = store w
  | Some r =>
      present w r
      ∧ name (deref (store w) r) = n
      ∧ Forall (λ r', name (deref (store w) r') = n →
                      (priority (deref (store w) r')
                       ≤ priority (deref (store w) r))%Z) (resources w)
      ∧ ¬ present w' r
      ∧ allocated (deref (store w') r) = false
      ∧ ∀ r', r' ≠ r → deref (store w') r' = deref (store w) r'
  end.
Proof.
  intros Hr Hrun.
  pose proof (reachable_ok w Hr) as [Hrefs Hheap _ _].
  destruct (deallocate_resource_ok n w Hheap) as (popped & Hperm & Hs & Hrun').
  rewrite Hrun' in Hrun. injection Hrun as <- <-. cbn.
  pose proof (last_match_split (store w) n popped None) as Hlast.
  destruct (last_match (store w) n popped None) as [r|].
  - destruct Hlast as [[? _]|(l1 & l2 & Hsplit & Hn & Hall)]; [done|].
    assert (r ∈ popped) as Hin by (rewrite Hsplit; set_solver).
    split_and!.
    + unfold present. by rewrite <- Hperm.
    + done.
    + rewrite <- Hperm. apply Forall_forall. intros r' Hin' Hn'.
      rewrite Hsplit in Hin', Hs.
      apply elem_of_app in Hin' as [Hl1|Hl2].
      * apply StronglySorted_app in Hs as (Hcross & _ & _).
        apply (Hcross r' r); [done|left].
      * apply elem_of_cons in Hl2 as [->|Hl2]; [done|].
        rewrite Forall_forall in Hall. by destruct (Hall _ Hl2).
    + unfold present. cbn. intros [Hkeep _]%list_elem_of_filter. by apply Hkeep.
    + destruct (deref_set_allocated (store w) r false r) as (_ & _ & ->).
      rewrite decide_True; [done|]. split; [done|].
      rewrite Forall_forall in Hrefs. apply Hrefs. by rewrite <- Hperm.
    + intros r' Hne. unfold set_allocated, deref.
      by rewrite list_lookup_total_insert_ne.
  - destruct Hlast as [_ Hall]. split; [|done]. by rewrite <- Hperm.
Qed.

Lemma deallocate_resource_returns_last_match_witness :
  present registry_A1_A2_B3 1
  ∧ name (deref (store registry_A1_A2_B3) 1) = "A"
  ∧ Forall (λ r', name (deref (store registry_A1_A2_B3) r') = "A" →
                  (priority (deref (store registry_A1_A2_B3) r')
                   ≤ priority (deref (store registry_A1_A2_B3) 1%nat))%Z)
           (resources registry_A1_A2_B3)
  ∧ ¬ present (after_deallocate "A" registry_A1_A2_B3) 1
  ∧ allocated (deref (store (after_deallocate "A" registry_A1_A2_B3)) 1) = false
  ∧ ∀ r', r' ≠ 1 →
          deref (store (after_deallocate "A" registry_A1_A2_B3)) r'
          = deref (store registry_A1_A2_B3) r'.
Proof.
  apply (deallocate_resource_returns_last_match registry_A1_A2_B3 "A" (Some 1)
           (after_deallocate "A" registry_A1_A2_B3)).
  - apply (registry_of_reachable [("A", 1); ("A", 2); ("B", 3)]%Z).
    vm_compute. reflexivity.
  - vm_compute. reflexivity.
Defined.

(** X7: after [deallocate_resource] of a name, in a reachable state, a
    search for that name finds nothing and a second [deallocate_resource]
    of it returns [None]. *)
Theorem deallocate_then_name_is_gone (w : World) (n : string)
    (d : option ref) (w' : World) :
  reachable w → deallocate_resource n w = Ok (d, w') →
  get_resource_by_name n w' = None
  ∧ ∃ w'', deallocate_resource n w' = Ok (None, w'').
Proof.
  intros Hr Hrun.
  destruct (deallocate_resource_world_ok n w (reachable_ok w Hr))
    as (d' & w1 & Hrun' & Hok & _ & Hgone & _).
  rewrite Hrun' in Hrun. injection Hrun as -> ->.
  split.
  - unfold get_resource_by_name.
    destruct (find _ (resources w')) as [r|] eqn:Hfind; [|done].
    apply find_some in Hfind as [Hin Hn].
    rewrite Forall_forall in Hgone.
    apply String.eqb_eq in Hn. apply list_elem_of_In in Hin.
    by destruct (Hgone _ Hin).
  - destruct (deallocate_resource_ok n w' (ok_heap w' Hok))
      as (popped & Hperm & _ & Hrun2).
    rewrite <- Hperm in Hgone.
    rewrite (last_match_none _ _ _ Hgone) in Hrun2.
    eexists. exact Hrun2.
Qed.

Lemma deallocate_then_name_is_gone_witness :
  get_resource_by_name "B" registry_A5_C3_without_B = None
  ∧ ∃ w'', deallocate_resource "B" registry_A5_C3_without_B = Ok (None, w'').
Proof.
  apply (deallocate_then_name_is_gone registry_A5_B1_C3 "B" (Some 1)).
  - apply (registry_of_reachable [("A", 5); ("B", 1); ("C", 3)]%Z).
    vm_compute. reflexivity.
  - vm_compute. reflexivity.
Defined.

(** ** Allocation through [main] *)

Lemma find_is_Some {A} (f : A → bool) (l : list A) x :
  x ∈ l → f x = true → is_Some (find f l).
Proof.
  intros Hin Hx. destruct (find f l) eqn:Hfind; [by eexists|].
  apply list_elem_of_In in Hin.
  pose proof (find_none f l Hfind x Hin). congruence.
Qed.

(** X8: in every reachable state an allocation request made through
    [main] succeeds: it creates one object with the requested name and
    priority and the flag set, queues it beside the records already queued,
    leaves the existing objects as they were, and a search for the name
    then finds a record. *)
Theorem main_allocate_adds_record (w : World) (n : string) (p : Z) :
  reachable w →
  ∃ w', main_allocate n p w = Ok (tt, w')
        ∧ resources w' ≡ₚ length (store w) :: resources w
        ∧ length (store w') = S (length (store w))
        ∧ deref (store w') (length (store w))
          = {| name := n; priority := p; allocated := true |}
        ∧ (∀ r, r < length (store w) → deref (store w') r = deref (store w) r)
        ∧ is_Some (get_resource_by_name n w').
Proof.
  intros Hr. pose proof (reachable_ok w Hr) as Hok.
  unfold main_allocate.
  destruct (CloudResource_new n p false w) as [r w1] eqn:Hnew.
  assert (r = length (store w)
          ∧ store w1 = store w ++ [{| name := n; priority := p; allocated := false |}]
          ∧ resources w1 = resources w) as (-> & Hst1 & Hq1).
  { unfold CloudResource_new in Hnew. by injection Hnew as <- <-. }
  assert (world_ok w1) as Hok1.
  { replace w1 with (CloudResource_new n p false w).2 by (by rewrite Hnew).
    by apply world_ok_new. }
  assert (deref (store w1) (length (store w))
          = {| name := n; priority := p; allocated := false |}) as Hderef.
  { rewrite Hst1. unfold deref. by apply list_lookup_total_middle. }
  destruct (allocate_resource_ok (length (store w)) w1 Hok1)
    as (w2 & Hrun & _ & Hcase).
  { rewrite Hst1, length_app. cbn. lia. }
  rewrite Hderef in Hcase. cbn [allocated] in Hcase.
  destruct Hcase as (Hperm & Hst2 & _ & _).
  rewrite Hrun. cbn [mbind result_bind].
  eexists. split; [done|]. cbn [print store resources].
  assert (deref (store w2) (length (store w))
          = {| name := n; priority := p; allocated := true |}) as Hnewobj.
  { rewrite Hst2. unfold set_allocated. fold (deref (store w1) (length (store w))).
    rewrite Hderef. cbn [name priority]. unfold deref.
    apply list_lookup_total_insert_eq. rewrite Hst1, length_app. cbn. lia. }
  split_and!.
  - by rewrite Hperm, Hq1.
  - rewrite Hst2, length_set_allocated, Hst1, length_app. cbn. lia.
  - done.
  - intros r Hlt. rewrite Hst2. unfold set_allocated, deref.
    rewrite list_lookup_total_insert_ne by lia.
    rewrite Hst1. by apply lookup_total_app_l.
  - unfold get_resource_by_name. cbn [store resources].
    apply (find_is_Some _ _ (length (store w))).
    + rewrite Hperm. left.
    + change (String.eqb (name (deref (store w2) (length (store w)))) n = true).
      rewrite Hnewobj. apply String.eqb_refl.
Qed.

Lemma main_allocate_adds_record_witness :
  ∃ w', main_allocate "D" 2 registry_A5_B1_C3 = Ok (tt, w')
        ∧ resources w' ≡ₚ length (store registry_A5_B1_C3)
                           :: resources registry_A5_B1_C3
        ∧ length (store w') = S (length (store registry_A5_B1_C3))
        ∧ deref (store w') (length (store registry_A5_B1_C3))
          = {| name := "D"; priority := 2; allocated := true |}
        ∧ (∀ r, r < length (store registry_A5_B1_C3) →
                deref (store w') r = deref (store registry_A5_B1_C3) r)
        ∧ is_Some (get_resource_by_name "D" w').
Proof.
  apply (main_allocate_adds_record registry_A5_B1_C3 "D" 2).
  apply (registry_of_reachable [("A", 5); ("B", 1); ("C", 3)]%Z).
  vm_compute. reflexivity.
Defined.

(** ** Snapshots *)

Lemma allocate_resource_snapshot r w w' :
  allocate_resource r w = Ok (tt, w') → merkle_tree w' = merkle_tree w.
Proof.
  unfold allocate_resource. destruct (negb _).
  - destruct (heappush _ _ _); [|done..]. cbn. by intros [= <-].
  - by intros [= <-].
Qed.

Lemma deallocate_resource_snapshot n w d w' :
  deallocate_resource n w = Ok (d, w') → merkle_tree w' = merkle_tree w.
Proof.
  unfold deallocate_resource.
  destruct (deallocate_drain _ _ _ _ _ _) as [[[q dd] copy]| |]; [|done..].
  cbn [mbind result_bind]. destruct (for_each _ _ _); [|done..].
  cbn. by intros [= _ <-].
Qed.

Lemma step_snapshot_ok w w' : step w w' → snapshot_ok w → snapshot_ok w'.
Proof.
  intros Hstep Hsnap. destruct Hstep as
    [n p a w | r w w' Hlt Hrun | n w d w' Hrun | w w' Hrun | w b w' Hrun | s w].
  - done.
  - unfold snapshot_ok. by rewrite (allocate_resource_snapshot _ _ _ Hrun).
  - unfold snapshot_ok. by rewrite (deallocate_resource_snapshot _ _ _ _ Hrun).
  - unfold build_merkle_tree, MerkleTree_init in Hrun.
    destruct (build_tree (resource_names w)) as [root| |] eqn:Hroot; [|done..].
    cbn in Hrun. injection Hrun as <-.
    intros t. cbn. by intros [= <-].
  - unfold verify_merkle_tree in Hrun. destruct (merkle_tree w) eqn:Hm.
    + destruct (build_tree (resource_names w)); [|done..].
      cbn in Hrun. by injection Hrun as _ <-.
    + injection Hrun as _ <-. unfold snapshot_ok. cbn. by rewrite Hm.
  - done.
Qed.

Lemma reachable_snapshot_ok w : reachable w → snapshot_ok w.
Proof.
  unfold reachable. revert w. apply rtc_ind_r.
  - intros t. cbn. done.
  - intros w1 w2 _ Hstep IH. by eapply step_snapshot_ok.
Qed.

(** X9: in every reachable state that holds a snapshot, if the queue
    enumerates exactly the names the snapshot was built from, then
    [verify_merkle_tree] returns [True] and changes nothing, whatever
    happened in between. *)
Theorem verify_accepts_unchanged_enumeration (w : World) (t : MerkleTree) :
  reachable w → merkle_tree w = Some t → resource_names w = data t →
  verify_merkle_tree w = Ok (true, w).
Proof.
  intros Hr Hm Hnames. unfold verify_merkle_tree. rewrite Hm, Hnames.
  rewrite (reachable_snapshot_ok w Hr t Hm). cbn.
  by rewrite String.eqb_refl.
Qed.

Lemma registry_ABC_snapshot_D_in_out_reachable :
  reachable registry_ABC_snapshot_D_in_out.
Proof.
  unfold reachable.
  apply (rtc_r _ (after_main_allocate "D" 4
                    (with_snapshot (registry_of [("A", 1); ("B", 2); ("C", 3)]%Z)))).
  - apply (main_allocate_reachable "D" 4
             (with_snapshot (registry_of [("A", 1); ("B", 2); ("C", 3)]%Z))).
    + apply (rtc_r _ (registry_of [("A", 1); ("B", 2); ("C", 3)]%Z)).
      * apply (registry_of_reachable [("A", 1); ("B", 2); ("C", 3)]%Z).
        vm_compute. reflexivity.
      * apply step_build. vm_compute. reflexivity.
    + vm_compute. reflexivity.
  - apply (step_deallocate "D" _ (Some 3)). vm_compute. reflexivity.
Qed.

Lemma verify_accepts_unchanged_enumeration_witness :
  verify_merkle_tree registry_ABC_snapshot_D_in_out
  = Ok (true, registry_ABC_snapshot_D_in_out).
Proof.
  apply (verify_accepts_unchanged_enumeration registry_ABC_snapshot_D_in_out
           {| data := ["A"; "B"; "C"];
              tree := "759051182630ccfb413782a23a83b6a5dd1cdd80b8ceacd4ed157e5eff4f2659" |}).
  - apply registry_ABC_snapshot_D_in_out_reachable.
  - vm_compute. reflexivity.
  - vm_compute. reflexivity.
Defined.

(** X10: once a snapshot is held, [verify_merkle_tree] on an empty queue
    raises [IndexError] (from [build_tree]), and so does the branch of
    [main] calling it. *)
Theorem verify_on_emptied_registry_raises (w : World) (t : MerkleTree) :
  merkle_tree w = Some t → resources w = [] →
  verify_merkle_tree w = Raise IndexError
  ∧ main_verify w = Raise IndexError.
Proof.
  intros Hm Hq. unfold main_verify, verify_merkle_tree, resource_names.
  by rewrite Hm, Hq.
Qed.

Lemma verify_on_emptied_registry_raises_witness :
  verify_merkle_tree registry_emptied_after_snapshot = Raise IndexError
  ∧ main_verify registry_emptied_after_snapshot = Raise IndexError.
Proof.
  apply (verify_on_emptied_registry_raises registry_emptied_after_snapshot
           {| data := ["A"];
              tree := "559aead08264d5795d3909718cdd05abd49572e84fe55590eef31a88a08fdffd" |}).
  - vm_compute. reflexivity.
  - vm_compute. reflexivity.
Defined.

Example registry_emptied_after_snapshot_reachable :
  reachable registry_emptied_after_snapshot.
Proof.
  unfold reachable.
  apply (rtc_r _ (with_snapshot (registry_of [("A", 1%Z)]))).
  - apply (rtc_r _ (registry_of [("A", 1%Z)])).
    + apply (registry_of_reachable [("A", 1%Z)]). vm_compute. reflexivity.
    + apply step_build. vm_compute. reflexivity.
  - apply (step_deallocate "A" _ (Some 0)). vm_compute. reflexivity.
Qed.

(** X11: [build_merkle_tree] raises [IndexError] on an empty queue and
    [UnicodeEncodeError] when a queued name cannot be encoded in UTF-8,
    whatever snapshot was held; otherwise it replaces the snapshot by one
    holding the queued names and their root and changes nothing else. *)
Theorem build_merkle_tree_cases (w : World) :
  (resources w = [] → build_merkle_tree w = Raise IndexError)
  ∧ (¬ Forall encodable (resource_names w) →
     build_merkle_tree w = Raise UnicodeEncodeError)
  ∧ (resources w ≠ [] → Forall encodable (resource_names w) →
     ∃ root, build_tree (resource_names w) = Ok root
             ∧ build_merkle_tree w
               = Ok (tt, {| store := store w; resources := resources w;
                            merkle_tree := Some {| data := resource_names w;
                                                   tree := root |};
                            stdout := stdout w |})).
Proof.
  unfold build_merkle_tree, MerkleTree_init. split_and!.
  - intros Hq. unfold resource_names. by rewrite Hq.
  - intros Hnot. by rewrite build_tree_unencodable.
  - intros Hne Henc.
    destruct (build_tree_spec (resource_names w)) as (root & Hroot & _);
      [by apply resource_names_nonempty|done|].
    exists root. by rewrite Hroot.
Qed.

Lemma build_merkle_tree_cases_witness :
  build_merkle_tree registry_emptied_after_snapshot = Raise IndexError
  ∧ build_merkle_tree registry_surrogate_after_snapshot = Raise UnicodeEncodeError
  ∧ ∃ root, build_tree (resource_names registry_A5_B1_C3) = Ok root
            ∧ build_merkle_tree registry_A5_B1_C3
              = Ok (tt, {| store := store registry_A5_B1_C3;
                           resources := resources registry_A5_B1_C3;
                           merkle_tree :=
                             Some {| data := resource_names registry_A5_B1_C3;
                                     tree := root |};
                           stdout := stdout registry_A5_B1_C3 |}).
Proof.
  split_and!.
  - destruct (build_merkle_tree_cases registry_emptied_after_snapshot) as (H & _ & _).
    apply H. vm_compute. reflexivity.
  - destruct (build_merkle_tree_cases registry_surrogate_after_snapshot)
      as (_ & H & _).
    apply H. apply (bool_decide_unpack _). vm_compute. exact I.
  - destruct (build_merkle_tree_cases registry_A5_B1_C3) as (_ & _ & H).
    apply H.
    + vm_compute. discriminate.
    + apply (bool_decide_unpack _). vm_compute. exact I.
Defined.

(** X12: asking [verify_merkle_tree] again right away gives the same
    answer: the call changes nothing but the output. *)
Theorem verify_merkle_tree_repeatable (w : World) (b : bool) (w' : World) :
  verify_merkle_tree w = Ok (b, w') →
  store w' = store w ∧ resources w' = resources w
  ∧ merkle_tree w' = merkle_tree w
  ∧ ∃ w'', verify_merkle_tree w' = Ok (b, w'').
Proof.
  unfold verify_merkle_tree. destruct (merkle_tree w) as [t|] eqn:Hm.
  - destruct (build_tree (resource_names w)) as [root| |] eqn:Hroot; [|done..].
    cbn. intros [= <- <-]. split_and!; [done..|].
    rewrite Hm, Hroot. by eexists.
  - intros [= <- <-]. cbn. split_and!; [done..|].
    rewrite Hm. by eexists.
Qed.

Lemma verify_merkle_tree_repeatable_witness :
  store (print "Merkle tree not built." init) = store init
  ∧ resources (print "Merkle tree not built." init) = resources init
  ∧ merkle_tree (print "Merkle tree not built." init) = merkle_tree init
  ∧ ∃ w'', verify_merkle_tree (print "Merkle tree not built." init)
           = Ok (false, w'').
Proof.
  apply (verify_merkle_tree_repeatable init false).
  vm_compute. reflexivity.
Defined.

(** ** The shape of digests and roots *)

Lemma hex_length bs : String.length (SHA256.hex bs) = 2 * length bs.
Proof. induction bs as [|b bs IH]; cbn [SHA256.hex String.length length]; lia. Qed.

Lemma be_bytes_length n x : length (SHA256.be_bytes n x) = n.
Proof. induction n as [|n IH]; cbn [SHA256.be_bytes length]; lia. Qed.

Lemma flat_map_be_bytes_length h :
  length (flat_map (SHA256.be_bytes 4) h) = 4 * length h.
Proof.
  induction h as [|x h IH]; [done|].
  cbn [flat_map]. rewrite length_app, be_bytes_length, IH. cbn [length]. lia.
Qed.

Lemma compress_length h block :
  length h = 8 → length (SHA256.compress h block) = 8.
Proof.
  intros Hh. unfold SHA256.compress. rewrite length_zip_with, Hh. done.
Qed.

Lemma fold_compress_length bs : ∀ h,
  length h = 8 → length (fold_left SHA256.compress bs h) = 8.
Proof.
  induction bs as [|b bs IH]; intros h Hh; [done|].
  cbn [fold_left]. by apply IH, compress_length.
Qed.

Lemma digest_length s : String.length (digest s) = 64.
Proof.
  unfold digest, SHA256.hexdigest, SHA256.digest.
  rewrite hex_length, flat_map_be_bytes_length, fold_compress_length; done.
Qed.

Lemma spec_root_Forall (P : string → Prop) level root :
  (∀ s, P (digest s)) → spec_root_of_level level root → Forall P level → P root.
Proof.
  intros Hhash. induction 1 as [x | level root Hlen _ IH]; intros Hall.
  - by apply Forall_cons_1 in Hall as [? _].
  - by apply IH, spec_collapse_Forall.
Qed.

(** X13: whenever [build_tree] returns a root, the root has exactly 64
    characters, whatever the number of items. *)
Theorem build_tree_root_length (data : list string) (root : string) :
  build_tree data = Ok root → String.length root = 64.
Proof.
  intros Hrun. destruct (build_tree_returns data root Hrun) as [Hne Henc].
  destruct (build_tree_spec data Hne Henc) as (root' & Hrun' & Hspec).
  assert (root' = root) as -> by congruence.
  apply (spec_root_Forall (λ s, String.length s = 64) (map digest data) root);
    [apply digest_length|done|].
  apply Forall_forall. intros s Hs.
  apply list_elem_of_In, in_map_iff in Hs as (x & <- & _). apply digest_length.
Qed.

Lemma build_tree_root_length_witness :
  String.length "759051182630ccfb413782a23a83b6a5dd1cdd80b8ceacd4ed157e5eff4f2659"
  = 64.
Proof.
  apply (build_tree_root_length ["A"; "B"; "C"]). vm_compute. reflexivity.
Defined.

(** ** Leaves and inner nodes are hashed alike *)

Lemma pair_names_leaves data :
  map digest (pair_names data) = spec_collapse (map digest data).
Proof.
  induction data as [| x | x y l IH] using pair_induction; [done..|].
  cbn [pair_names map spec_collapse]. by rewrite IH.
Qed.

Lemma pair_names_length data :
  length (pair_names data) = (length data + 1) / 2.
Proof.
  induction data as [| x | x y l IH] using pair_induction; [done..|].
  cbn [pair_names length]. by rewrite IH, half_step.
Qed.

Lemma pair_names_encodable data :
  Forall encodable data → Forall encodable (pair_names data).
Proof.
  induction data as [| x | x y l IH] using pair_induction; intros Hall.
  - constructor.
  - done.
  - cbn [pair_names]. constructor.
    + apply all_hex_encodable. by rewrite all_hex_app, !digest_all_hex.
    + apply IH. by do 2 apply Forall_cons_1 in Hall as [_ Hall].
Qed.

(** X14: [build_tree] does not tell a leaf from an inner node.  Whenever
    it returns a root for a sequence of at least two names, it returns the
    same root for the shorter sequence in which each adjacent pair of names
    is replaced by the one name made of their two digests (an unpaired last
    name kept). *)
Theorem build_tree_same_root_one_level_up (data : list string) (root : string) :
  2 ≤ length data → build_tree data = Ok root →
  length (pair_names data) < length data
  ∧ build_tree (pair_names data) = Ok root.
Proof.
  intros Hlen Hrun.
  assert (length (pair_names data) < length data) as Hshort.
  { rewrite pair_names_length. apply Nat.Div0.div_lt_upper_bound. lia. }
  split; [done|].
  destruct (build_tree_returns data root Hrun) as [Hne Henc].
  assert (pair_names data ≠ []) as Hne'.
  { destruct data as [|x [|y rest]]; [done|cbn in Hlen; lia|discriminate]. }
  destruct (build_tree_spec data Hne Henc) as (root1 & Hrun1 & Hspec).
  assert (root1 = root) as -> by congruence.
  destruct (build_tree_spec (pair_names data) Hne' (pair_names_encodable data Henc))
    as (root' & Hrun' & Hspec').
  rewrite Hrun'. f_equal.
  unfold spec_build in *. rewrite pair_names_leaves in Hspec'.
  inversion Hspec as [x Hx|level r Hl Hroot]; subst.
  - destruct data as [|? [|? ?]]; cbn in *; try lia; discriminate.
  - by eapply spec_root_of_level_functional.
Qed.

Lemma build_tree_same_root_one_level_up_witness :
  length (pair_names ["A"; "B"; "C"]) < length ["A"; "B"; "C"]
  ∧ build_tree (pair_names ["A"; "B"; "C"])
    = Ok "759051182630ccfb413782a23a83b6a5dd1cdd80b8ceacd4ed157e5eff4f2659".
Proof.
  apply (build_tree_same_root_one_level_up ["A"; "B"; "C"]).
  - cbn. lia.
  - vm_compute. reflexivity.
Defined.

(** ** Objects are never lost or renamed *)

Lemma allocate_resource_store r w w' :
  allocate_resource r w = Ok (tt, w') →
  store w' = store w ∨ store w' = set_allocated (store w) r true.
Proof.
  unfold allocate_resource. destruct (negb _).
  - destruct (heappush _ _ _); [|done..]. cbn. intros [= <-]. by right.
  - intros [= <-]. by left.
Qed.

Lemma deallocate_resource_store n w d w' :
  deallocate_resource n w = Ok (d, w') →
  store w' = store w ∨ ∃ r, store w' = set_allocated (store w) r false.
Proof.
  unfold deallocate_resource.
  destruct (deallocate_drain _ _ _ _ _ _) as [[[q dd] copy]| |]; [|done..].
  cbn [mbind result_bind]. destruct (for_each _ _ _); [|done..].
  cbn. intros [= _ <-]. cbn. destruct dd; [right; by eexists|by left].
Qed.

Lemma step_keeps_objects w w' :
  step w w' →
  length (store w) ≤ length (store w')
  ∧ ∀ r, r < length (store w) →
         name (deref (store w') r) = name (deref (store w) r)
         ∧ priority (deref (store w') r) = priority (deref (store w) r).
Proof.
  intros Hstep. destruct Hstep as
    [n p a w | r w w' Hlt Hrun | n w d w' Hrun | w w' Hrun | w b w' Hrun | s w].
  - cbn. rewrite length_app. split; [lia|].
    intros r Hr. by rewrite deref_app.
  - destruct (allocate_resource_store _ _ _ Hrun) as [-> | ->]; [done|].
    rewrite length_set_allocated. split; [done|]. intros r' _.
    destruct (deref_set_allocated (store w) r true r') as (? & ? & _). done.
  - destruct (deallocate_resource_store _ _ _ _ Hrun) as [-> | [r ->]]; [done|].
    rewrite length_set_allocated. split; [done|]. intros r' _.
    destruct (deref_set_allocated (store w) r false r') as (? & ? & _). done.
  - unfold build_merkle_tree in Hrun.
    destruct (MerkleTree_init (resource_names w)); [|done..].
    cbn in Hrun. by injection Hrun as <-.
  - unfold verify_merkle_tree in Hrun. destruct (merkle_tree w).
    + destruct (build_tree (resource_names w)); [|done..].
      cbn in Hrun. by injection Hrun as _ <-.
    + by injection Hrun as _ <-.
  - done.
Qed.

(** X15: whatever operations lead from one state to a later one, every
    object of the earlier state still exists in the later one under the
    same reference, with the same name and the same priority: only the
    [allocated] flag of an object ever changes. *)
Theorem objects_keep_name_and_priority (w w' : World) :
  rtc step w w' →
  length (store w) ≤ length (store w')
  ∧ ∀ r, r < length (store w) →
         name (deref (store w') r) = name (deref (store w) r)
         ∧ priority (deref (store w') r) = priority (deref (store w) r).
Proof.
  induction 1 as [w | w w1 w' Hstep _ IH]; [done|].
  destruct (step_keeps_objects w w1 Hstep) as [Hlen Hsame].
  destruct IH as [Hlen' Hsame']. split; [lia|].
  intros r Hr. destruct (Hsame' r ltac:(lia)) as [-> ->]. by apply Hsame.
Qed.

Lemma objects_keep_name_and_priority_witness :
  length (store registry_A5_B1_C3) ≤ length (store registry_A5_C3_without_B)
  ∧ ∀ r, r < length (store registry_A5_B1_C3) →
         name (deref (store registry_A5_C3_without_B) r)
         = name (deref (store registry_A5_B1_C3) r)
         ∧ priority (deref (store registry_A5_C3_without_B) r)
           = priority (deref (store registry_A5_B1_C3) r).
Proof.
  apply (objects_keep_name_and_priority registry_A5_B1_C3 registry_A5_C3_without_B).
  apply rtc_once.
  apply (step_deallocate "B" _ (Some 1)). vm_compute. reflexivity.
Defined.

(** ** When [deallocate_resource] leaves the order alone *)

Lemma StronglySorted_of_map {A} (key : A → Z) (l : list A) :
  StronglySorted Z.le (map key l) →
  StronglySorted (λ a b, key a ≤ key b)%Z l.
Proof.
  induction l as [|x l IH]; cbn [map]; [constructor|].
  intros [Hall Hs]%StronglySorted_cons. constructor; [by apply IH|].
  apply Forall_forall. intros y Hy. rewrite Forall_forall in Hall.
  apply Hall. apply list_elem_of_In, in_map. by apply list_elem_of_In.
Qed.

Lemma NoDup_map_inj {A} (key : A → Z) (l : list A) x y :
  NoDup (map key l) → x ∈ l → y ∈ l → key x = key y → x = y.
Proof.
  induction l as [|a l IH]; cbn [map]; [by intros _ ?%elem_of_nil|].
  intros [Hnotin Hnd]%NoDup_cons Hx Hy Heq.
  assert (∀ z, z ∈ l → key z ≠ key a) as Hfresh.
  { intros z Hz Hk. apply Hnotin. rewrite <- Hk.
    apply list_elem_of_In, in_map. by apply list_elem_of_In. }
  apply elem_of_cons in Hx as [->|Hx]; apply elem_of_cons in Hy as [->|Hy].
  - done.
  - by destruct (Hfresh y Hy).
  - by destruct (Hfresh x Hx).
  - by apply IH.
Qed.

(** X16: in a reachable state whose queue already enumerates the records
    in nondecreasing priority order, with no two queued records of equal
    priority, deallocating a name that no queued record carries returns
    [None] and leaves the whole state, enumeration order included, as it
    was. *)
Theorem deallocate_unknown_on_sorted_queue (w : World) (n : string) :
  reachable w →
  Sorted Z.le (queue_priorities w) →
  NoDup (queue_priorities w) →
  Forall (λ r, name (deref (store w) r) ≠ n) (resources w) →
  deallocate_resource n w = Ok (None, w).
Proof.
  intros Hr Hsorted Hnd Hnone.
  destruct (deallocate_resource_ok n w (ok_heap w (reachable_ok w Hr)))
    as (popped & Hperm & Hs & Hrun).
  assert (popped = resources w) as ->.
  { apply (StronglySorted_unique_strong
             (λ a b, key_of (store w) a ≤ key_of (store w) b)%Z); [|done| |done].
    - intros x y Hx Hy Hxy Hyx.
      apply (NoDup_map_inj (key_of (store w)) (resources w)); [done| |done|lia].
      by rewrite <- Hperm.
    - apply StronglySorted_of_map. by apply Sorted_StronglySorted; [intros ???; lia|]. }
  rewrite (last_match_none _ _ _ Hnone) in Hrun.
  rewrite (filter_all _ _ Hnone) in Hrun.
  rewrite Hrun. by destruct w.
Qed.

Lemma deallocate_unknown_on_sorted_queue_witness :
  deallocate_resource "Z" registry_A5_C3_without_B
  = Ok (None, registry_A5_C3_without_B).
Proof.
  apply (deallocate_unknown_on_sorted_queue registry_A5_C3_without_B "Z").
  - eapply rtc_r.
    + apply (registry_of_reachable [("A", 5); ("B", 1); ("C", 3)]%Z).
      vm_compute. reflexivity.
    + apply (step_deallocate "B" _ (Some 1)). vm_compute. reflexivity.
  - vm_compute. repeat constructor; discriminate.
  - apply (bool_decide_unpack _). vm_compute. exact I.
  - vm_compute. repeat constructor; discriminate.
Defined.

(** ** Allocating in priority order *)

(** X17: in a reachable state, a request through [main] whose priority is
    not below that of any queued record puts the new record at the end of
    the queue: the enumeration is the former one followed by the new
    name. *)
Theorem main_allocate_largest_appends (w : World) (n : string) (p : Z) :
  reachable w →
  Forall (λ r, priority (deref (store w) r) ≤ p)%Z (resources w) →
  ∃ w', main_allocate n p w = Ok (tt, w')
        ∧ resources w' = resources w ++ [length (store w)]
        ∧ snapshotOrder w' = snapshotOrder w ++ [n].
Proof.
  intros Hr Hle. pose proof (reachable_ok w Hr) as [Hrefs _ _ _].
  set (x := {| name := n; priority := p; allocated := false |}).
  set (st1 := store w ++ [x]).
  assert (deref st1 (length (store w)) = x) as Hx.
  { unfold deref, st1. by apply list_lookup_total_middle. }
  assert (∀ r, r ∈ resources w → deref st1 r = deref (store w) r) as Hold.
  { intros r Hin. rewrite Forall_forall in Hrefs. apply deref_app. by apply Hrefs. }
  unfold main_allocate, CloudResource_new, allocate_resource.
  cbn [store resources merkle_tree stdout]. fold x st1.
  rewrite Hx. cbn [allocated negb].
  rewrite (heappush_largest (lt_ref st1) (key_of st1) (lt_ref_key st1)).
  2:{ apply Forall_forall. intros r Hin. unfold key_of. rewrite Hx, (Hold r Hin).
      rewrite Forall_forall in Hle. by apply Hle. }
  cbn [mbind result_bind]. eexists. split; [done|].
  cbn [print store resources]. split; [done|].
  unfold snapshotOrder, resource_names, print. cbn [store resources].
  rewrite map_app. cbn [map]. rewrite name_set_allocated, Hx. cbn [name].
  f_equal. apply map_ext_in. intros r Hin%list_elem_of_In.
  by rewrite name_set_allocated, (Hold r Hin).
Qed.

Lemma main_allocate_largest_appends_witness :
  ∃ w', main_allocate "D" 7 registry_A5_B1_C3 = Ok (tt, w')
        ∧ resources w' = resources registry_A5_B1_C3
                         ++ [length (store registry_A5_B1_C3)]
        ∧ snapshotOrder w' = snapshotOrder registry_A5_B1_C3 ++ ["D"].
Proof.
  apply (main_allocate_largest_appends registry_A5_B1_C3 "D" 7).
  - apply (registry_of_reachable [("A", 5); ("B", 1); ("C", 3)]%Z).
    vm_compute. reflexivity.
  - vm_compute. repeat constructor; discriminate.
Defined.
